(** * The local work store (services/db.ts) over a model of IndexedDB

    The store is three asynchronous functions, [initDB], [saveWork] and
    [getAllWorks], written against the browser's IndexedDB engine.  The
    engine is modelled as explicit state (the databases of the origin, a
    schedule of platform faults and a log of the primitive calls issued),
    a promise as the outcome it settles with, and an [async] function as
    a computation in the state-and-rejection monad [Async]. *)

From Stdlib Require Import ZArith NArith Ascii String List Lia.
From stdpp Require Import base option gmap strings list sorting pretty.

Local Open Scope string_scope.
Local Open Scope list_scope.

(** ** types.ts *)

Inductive Category := BRAND | VIDEO | EXHIBITION.

(** The string each enum member stands for at run time. *)
Definition Category_value (c : Category) : string :=
  match c with
  | BRAND => "brand"
  | VIDEO => "video"
  | EXHIBITION => "exhibition"
  end.

(** A [Blob]: its MIME type and its bytes. *)
Record Blob := {
  blob_type : string;
  blob_bytes : list Byte.byte
}.

(** [WorkItem].  Type annotations are erased at run time, so [category]
    holds the string of the enum member (or whatever string a caller
    passes); [createdAt] holds the integer millisecond timestamp of
    [Date.now()], on which the subtraction of the comparator is exact. *)
Record WorkItem := {
  id : string;
  title : string;
  category : string;
  description : string;
  coverBlob : Blob;
  fileBlob : Blob;
  fileName : string;
  fileType : string;
  createdAt : Z
}.

Definition is_Category (s : string) : Prop :=
  ∃ c, s = Category_value c.

(** ** The IndexedDB engine *)

Inductive DOMException :=
  | UnknownError
  | QuotaExceededError
  | VersionError
  | AbortError
  | NotFoundError
  | InvalidAccessError
  | InvalidStateError
  | ReadOnlyError
  | DataError
  | ConstraintError.

(** What a promise settles with. *)
Inductive Settled (A : Type) :=
  | Resolved (a : A)
  | Rejected (e : DOMException).
Arguments Resolved {A} a.
Arguments Rejected {A} e.

Definition rejection {A} (r : Settled A) : option DOMException :=
  match r with
  | Resolved _ => None
  | Rejected e => Some e
  end.

(** An object store: its key path and its records, one per key. *)
Record ObjectStore := {
  keyPath : string;
  records : gmap string WorkItem
}.

Record Database := {
  version : N;
  objectStores : gmap string ObjectStore
}.

(** The primitives of the engine the store calls. *)
Inductive Call :=
  | CallOpen
  | CallTransaction
  | CallObjectStore
  | CallAdd
  | CallGetAll.

(** The engine: the databases of the origin by name; for each coming
    request, whether the platform fails it (storage denied, unavailable
    or corrupted) and with which error, the empty schedule meaning a
    platform that works; and the primitive calls made so far, each with
    the error it reported. *)
Record IDBFactory := {
  databases : gmap string Database;
  faults : list (option DOMException);
  log : list (Call * option DOMException)
}.

(** An asynchronous computation: it runs on the engine and settles. *)
Definition Async (A : Type) : Type := IDBFactory → Settled A * IDBFactory.

#[export] Instance Async_ret : MRet Async := λ A a e, (Resolved a, e).

(** [await]: a rejection of the awaited promise rejects the whole
    function, as does an exception thrown in a promise executor. *)
#[export] Instance Async_bind : MBind Async := λ A B k m e,
  match m e with
  | (Resolved a, e') => k a e'
  | (Rejected err, e') => (Rejected err, e')
  end.

Definition report {A} (c : Call) (r : Settled A) (e : IDBFactory)
  : Settled A * IDBFactory :=
  (r, {| databases := databases e; faults := faults e;
         log := log e ++ [(c, rejection r)] |}).

Definition next_fault (e : IDBFactory) : option DOMException * IDBFactory :=
  match faults e with
  | [] => (None, e)
  | f :: fs => (f, {| databases := databases e; faults := fs; log := log e |})
  end.

Definition set_database (name : string) (d : Database) (e : IDBFactory)
  : IDBFactory :=
  {| databases := <[name := d]> (databases e); faults := faults e;
     log := log e |}.

(** The handles scripts hold. *)
Record IDBDatabase := {
  db_name : string;
  db_version : N
}.

Inductive IDBTransactionMode := readonly | readwrite.

Record IDBTransaction := {
  tx_db : string;
  tx_scope : list string;
  tx_mode : IDBTransactionMode
}.

Record IDBObjectStore := {
  os_transaction : IDBTransaction;
  os_name : string
}.

(** [db.objectStoreNames.contains(name)] *)
Definition contains (d : Database) (name : string) : bool :=
  bool_decide (is_Some (objectStores d !! name)).

(** [db.createObjectStore(name, { keyPath })], legal during an upgrade;
    it throws when a store of that name exists. *)
Definition createObjectStore (name kp : string) (d : Database)
  : DOMException + Database :=
  if contains d name then inl ConstraintError
  else inr {| version := version d;
              objectStores :=
                <[name := {| keyPath := kp; records := ∅ |}]> (objectStores d) |}.

(** [indexedDB.open(name, v)] followed to the event that settles the
    request.  A database that does not exist starts at version 0 with no
    store; a stored version above [v] is a [VersionError]; a stored
    version below [v] runs the upgrade handler on the database at version
    [v], and a handler that throws aborts the upgrade, which leaves the
    database as it was. *)
Definition indexedDB_open (name : string) (v : N)
    (onupgradeneeded : Database → DOMException + Database) : Async IDBDatabase :=
  λ e,
    let '(f, e1) := next_fault e in
    match f with
    | Some err => report CallOpen (Rejected err) e1
    | None =>
        let d := default {| version := 0; objectStores := ∅ |}
                         (databases e1 !! name) in
        if (v <? version d)%N then report CallOpen (Rejected VersionError) e1
        else if (version d <? v)%N then
          match onupgradeneeded {| version := v; objectStores := objectStores d |} with
          | inl _ => report CallOpen (Rejected AbortError) e1
          | inr d' =>
              report CallOpen (Resolved {| db_name := name; db_version := v |})
                     (set_database name d' e1)
          end
        else report CallOpen (Resolved {| db_name := name; db_version := v |}) e1
    end.

(** [db.transaction(storeNames, mode)]: throws [NotFoundError] when a
    named store is not in the database, [InvalidAccessError] when no
    store is named. *)
Definition transaction (db : IDBDatabase) (storeNames : list string)
    (mode : IDBTransactionMode) : Async IDBTransaction :=
  λ e,
    match databases e !! db_name db with
    | Some d =>
        if negb (forallb (contains d) storeNames)
        then report CallTransaction (Rejected NotFoundError) e
        else if bool_decide (storeNames = [])
        then report CallTransaction (Rejected InvalidAccessError) e
        else report CallTransaction
               (Resolved {| tx_db := db_name db; tx_scope := storeNames;
                            tx_mode := mode |}) e
    | None => report CallTransaction (Rejected InvalidStateError) e
    end.

(** [transaction.objectStore(name)]: throws when [name] is not in the
    scope of the transaction. *)
Definition objectStore (tx : IDBTransaction) (name : string)
  : Async IDBObjectStore :=
  λ e,
    if bool_decide (name ∈ tx_scope tx)
    then report CallObjectStore
           (Resolved {| os_transaction := tx; os_name := name |}) e
    else report CallObjectStore (Rejected NotFoundError) e.

(** The key of a value under a key path: the string-valued property of
    that name.  (The only store this program creates is keyed by ['id'].) *)
Definition extract_key (kp : string) (w : WorkItem) : option string :=
  if bool_decide (kp = "id") then Some (id w)
  else if bool_decide (kp = "title") then Some (title w)
  else if bool_decide (kp = "category") then Some (category w)
  else if bool_decide (kp = "description") then Some (description w)
  else if bool_decide (kp = "fileName") then Some (fileName w)
  else if bool_decide (kp = "fileType") then Some (fileType w)
  else None.

(** The data a store handle refers to. *)
Definition store_data (store : IDBObjectStore) (e : IDBFactory)
  : option (Database * ObjectStore) :=
  d ← databases e !! tx_db (os_transaction store);
  s ← objectStores d !! os_name store;
  Some (d, s).

(** [store.add(value)]: a new record under the value's key.  It throws
    in a read-only transaction, on a store that is gone and on a value
    with no key; the request fails when the platform fails it, and with
    [ConstraintError] when a record is under that key already, and then
    nothing is written.  The write is that of a transaction that commits;
    a transaction that aborts is [saveWork_ending] below. *)
Definition add (store : IDBObjectStore) (w : WorkItem) : Async unit :=
  λ e,
    match tx_mode (os_transaction store) with
    | readonly => report CallAdd (Rejected ReadOnlyError) e
    | readwrite =>
        match store_data store e with
        | None => report CallAdd (Rejected InvalidStateError) e
        | Some (d, s) =>
            match extract_key (keyPath s) w with
            | None => report CallAdd (Rejected DataError) e
            | Some k =>
                let '(f, e1) := next_fault e in
                match f with
                | Some err => report CallAdd (Rejected err) e1
                | None =>
                    match records s !! k with
                    | Some _ => report CallAdd (Rejected ConstraintError) e1
                    | None =>
                        let s' := {| keyPath := keyPath s;
                                     records := <[k := w]> (records s) |} in
                        let d' := {| version := version d;
                                     objectStores :=
                                       <[os_name store := s']> (objectStores d) |} in
                        report CallAdd (Resolved tt)
                          (set_database (tx_db (os_transaction store)) d' e1)
                    end
                end
            end
        end
    end.

(** ** Keys *)

(** A continuation byte of UTF-8. *)
Definition continuation (b : N) : bool := ((128 <=? b) && (b <? 192))%N.

(** The UTF-16 code units of a code point: itself, or a surrogate pair
    above the basic plane. *)
Definition code_units (cp : N) : list N :=
  if (cp <? 65536)%N then [cp]
  else [(55296 + N.shiftr (cp - 65536) 10)%N;
        (56320 + N.land (cp - 65536) 1023)%N].

(** The UTF-16 code units of a string, a JavaScript string being held
    here by the bytes of its UTF-8 form; a byte that begins no
    well-formed sequence reads as U+FFFD. *)
Fixpoint utf16 (s : string) : list N :=
  match s with
  | EmptyString => []
  | String c1 r1 =>
      let b1 := N_of_ascii c1 in
      if (b1 <? 128)%N then b1 :: utf16 r1
      else
        match r1 with
        | String c2 r2 =>
            let b2 := N_of_ascii c2 in
            if ((192 <=? b1) && (b1 <? 224))%N && continuation b2
            then (64 * (b1 - 192) + (b2 - 128))%N :: utf16 r2
            else
              match r2 with
              | String c3 r3 =>
                  let b3 := N_of_ascii c3 in
                  if ((224 <=? b1) && (b1 <? 240))%N
                     && continuation b2 && continuation b3
                  then (4096 * (b1 - 224) + 64 * (b2 - 128) + (b3 - 128))%N
                         :: utf16 r3
                  else
                    match r3 with
                    | String c4 r4 =>
                        let b4 := N_of_ascii c4 in
                        if ((240 <=? b1) && (b1 <? 248))%N
                           && continuation b2 && continuation b3
                           && continuation b4
                        then code_units
                               (262144 * (b1 - 240) + 4096 * (b2 - 128)
                                + 64 * (b3 - 128) + (b4 - 128))%N
                               ++ utf16 r4
                        else 65533%N :: utf16 r1
                    | EmptyString => 65533%N :: utf16 r1
                    end
              | EmptyString => 65533%N :: utf16 r1
              end
        | EmptyString => [65533%N]
        end
  end.

(** Sequences of code units, compared unit by unit. *)
Fixpoint units_compare (l1 l2 : list N) : comparison :=
  match l1, l2 with
  | [], [] => Eq
  | [], _ :: _ => Lt
  | _ :: _, [] => Gt
  | u1 :: r1, u2 :: r2 =>
      match (u1 ?= u2)%N with
      | Eq => units_compare r1 r2
      | c => c
      end
  end.

(** The order of string keys in IndexedDB: that of their UTF-16 code
    units.  (Two byte strings with the same code units, which takes an
    ill-formed one, are told apart by their bytes.) *)
Definition key_compare (s t : string) : comparison :=
  match units_compare (utf16 s) (utf16 t) with
  | Eq => String.compare s t
  | c => c
  end.

Definition key_ltb (s t : string) : bool :=
  match key_compare s t with Lt => true | _ => false end.

Definition key_leb (s t : string) : bool :=
  match key_compare s t with Gt => false | _ => true end.

(** The order of the records of a store: that of their keys. *)
Definition key_le (p q : string * WorkItem) : Prop := key_leb p.1 q.1 = true.

#[export] Instance key_le_dec : RelDecision key_le.
Proof. intros p q. unfold key_le. apply _. Defined.

(** [store.getAll()]: the values of all records, in ascending order of
    their keys. *)
Definition getAll (store : IDBObjectStore) : Async (list WorkItem) :=
  λ e,
    match store_data store e with
    | None => report CallGetAll (Rejected InvalidStateError) e
    | Some (_, s) =>
        let '(f, e1) := next_fault e in
        match f with
        | Some err => report CallGetAll (Rejected err) e1
        | None =>
            report CallGetAll
              (Resolved (snd <$> merge_sort key_le (map_to_list (records s)))) e1
        end
    end.

(** ** Array.prototype.sort *)

(** [arr.sort(compareFn)] is a stable sort: [a] comes before [b] when
    [compareFn(a, b) < 0], and elements that compare equal keep their
    order.  Insertion from the right end is such a sort. *)
Section Array_sort.
Context {A : Type} (compareFn : A → A → Z).

Fixpoint sort_insert (x : A) (l : list A) : list A :=
  match l with
  | [] => [x]
  | y :: r =>
      if (compareFn x y <=? 0)%Z then x :: y :: r
      else y :: sort_insert x r
  end.

Fixpoint Array_sort (l : list A) : list A :=
  match l with
  | [] => []
  | x :: r => sort_insert x (Array_sort r)
  end.
End Array_sort.

(** ** services/db.ts *)

Definition DB_NAME : string := "AllInsightDB".
Definition STORE_NAME : string := "works".
Definition VERSION : N := 1.

(** [request.onupgradeneeded] of [initDB]. *)
Definition onupgradeneeded (db : Database) : DOMException + Database :=
  if negb (contains db STORE_NAME)
  then createObjectStore STORE_NAME "id" db
  else inr db.

Definition initDB : Async IDBDatabase :=
  indexedDB_open DB_NAME VERSION onupgradeneeded.

Definition saveWork (work : WorkItem) : Async unit :=
  db ← initDB;
  transaction ← transaction db [STORE_NAME] readwrite;
  store ← objectStore transaction STORE_NAME;
  add store work.

(** The comparator of [getAllWorks]: [(a, b) => b.createdAt - a.createdAt]. *)
Definition by_date_descending (a b : WorkItem) : Z :=
  (createdAt b - createdAt a)%Z.

Definition getAllWorks : Async (list WorkItem) :=
  db ← initDB;
  transaction ← transaction db [STORE_NAME] readonly;
  store ← objectStore transaction STORE_NAME;
  result ← getAll store;
  mret (Array_sort by_date_descending result).

(** ** The end of a transaction *)

(** A transaction whose requests are done ends: it commits, event
    [complete], or the engine aborts it, event [abort] with the
    transaction's [error] (the quota is exceeded when the data is written
    out, say), and then what its requests wrote is undone.  [initDB],
    [saveWork] and [getAllWorks] above are the runs whose transactions
    commit. *)
Inductive TransactionEnd :=
  | oncomplete
  | onabort (error : DOMException).

(** [saveWork] with the end of its transaction.  The promise is settled
    by [request.onsuccess] and [request.onerror] alone: no handler is
    registered on the transaction, so how it ends does not reach the
    outcome.  An abort leaves the databases as the [open] left them, the
    upgrade being a transaction of its own. *)
Definition saveWork_ending (work : WorkItem) (ending : TransactionEnd)
  : Async unit :=
  λ e,
    let '(r, e') := saveWork work e in
    match ending with
    | oncomplete => (r, e')
    | onabort _ =>
        (r, {| databases := databases (initDB e).2;
               faults := faults e';
               log := log e' |})
    end.

(** ** Stores and runs *)

(** The engine of a profile that has never been used, on a platform that
    works. *)
Definition fresh : IDBFactory :=
  {| databases := ∅; faults := []; log := [] |}.

(** The records of the collection: those of store [STORE_NAME] of
    database [DB_NAME], none when either does not exist. *)
Definition works (e : IDBFactory) : gmap string WorkItem :=
  default ∅
    (d ← databases e !! DB_NAME;
     s ← objectStores d !! STORE_NAME;
     Some (records s)).

(** The invariant of the collection as this program leaves it: the
    database is absent, or it is at [VERSION] and has the store, keyed
    by ['id'], every record filed under its own [id]. *)
Definition store_ok (e : IDBFactory) : Prop :=
  match databases e !! DB_NAME with
  | None => True
  | Some d =>
      version d = VERSION ∧
      match objectStores d !! STORE_NAME with
      | None => False
      | Some s =>
          keyPath s = "id" ∧ map_Forall (λ k w, id w = k) (records s)
      end
  end.

#[export] Instance store_ok_dec e : Decision (store_ok e).
Proof. unfold store_ok. repeat case_match; apply _. Defined.

(** No two stored records share an [id]. *)
Definition unique_ids (m : gmap string WorkItem) : Prop :=
  ∀ k1 k2 w1 w2,
    m !! k1 = Some w1 → m !! k2 = Some w2 → id w1 = id w2 → k1 = k2.

(** What [getAllWorks] resolves with, as a function of the records. *)
Definition listing (m : gmap string WorkItem) : list WorkItem :=
  Array_sort by_date_descending (snd <$> merge_sort key_le (map_to_list m)).

(** The three operations, and the engine after running some. *)
Inductive Op :=
  | OpInit
  | OpInsert (w : WorkItem)
  | OpListAll.

Definition exec (o : Op) (e : IDBFactory) : IDBFactory :=
  match o with
  | OpInit => (initDB e).2
  | OpInsert w => (saveWork w e).2
  | OpListAll => (getAllWorks e).2
  end.

Definition exec_all (os : list Op) (e : IDBFactory) : IDBFactory :=
  foldl (λ e o, exec o e) e os.

(** The rejection an operation settles with, if any. *)
Definition outcome (o : Op) (e : IDBFactory) : option DOMException :=
  match o with
  | OpInit => rejection (initDB e).1
  | OpInsert w => rejection (saveWork w e).1
  | OpListAll => rejection (getAllWorks e).1
  end.

(** Inserting the records of a list one after the other, each insert
    awaited. *)
Fixpoint insert_all (ws : list WorkItem) : Async unit :=
  match ws with
  | [] => mret tt
  | w :: r => saveWork w ≫= λ _, insert_all r
  end.

(** [n] calls of [initDB] in sequence: the outcomes, and the engine
    after the last. *)
Fixpoint initDB_times (n : nat) (e : IDBFactory)
  : list (Settled IDBDatabase) * IDBFactory :=
  match n with
  | O => ([], e)
  | S n' =>
      let '(r, e1) := initDB e in
      let '(rs, e2) := initDB_times n' e1 in
      (r :: rs, e2)
  end.

(** The errors the engine reported in a stretch of its log, and the
    number of calls of one primitive in it. *)
Definition reported (l : list (Call * option DOMException))
  : list DOMException :=
  omap snd l.

#[export] Instance Call_eq_dec : EqDecision Call.
Proof. solve_decision. Defined.

Definition calls (c : Call) (l : list (Call * option DOMException)) : nat :=
  length (filter (λ ev, ev.1 = c) l).

(** The order of the listing: the later record first and, of two
    records of one date, the one whose [id] is the smaller key first. *)
Definition listed_before (a b : WorkItem) : Prop :=
  (createdAt b < createdAt a)%Z ∨
  (createdAt a = createdAt b ∧ key_ltb (id a) (id b) = true).

(** A primitive [m] of the engine appends one entry to the log: its
    call [c], with the error it reported. *)
Definition logs {A} (c : Call) (m : Async A) : Prop :=
  ∀ e, log (m e).2 = log e ++ [(c, rejection (m e).1)].

(** [e'] is a state the engine can be in after [e]: every record of the
    collection is still there, unchanged; the invariant of the collection
    still holds if it held; a platform that worked still works. *)
Definition later (e e' : IDBFactory) : Prop :=
  (∀ k w, works e !! k = Some w → works e' !! k = Some w) ∧
  (store_ok e → store_ok e') ∧
  (faults e = [] → faults e' = []).

(** [m] only moves the engine to later states. *)
Definition advances {A} (m : Async A) : Prop :=
  ∀ e, later e (m e).2.

(** Sample records. *)
Definition png : Blob :=
  {| blob_type := "image/png";
     blob_bytes := [Byte.x89; Byte.x50; Byte.x4e; Byte.x47] |}.

Definition work (i t c : string) (ts : Z) : WorkItem :=
  {| id := i; title := t; category := c; description := "";
     coverBlob := png; fileBlob := png;
     fileName := "cover.png"; fileType := "image/png"; createdAt := ts |}.

Definition alpha : WorkItem := work "1" "Alpha" "brand" 100.
Definition beta : WorkItem := work "2" "Beta" "video" 200.
Definition gamma : WorkItem := work "1" "Gamma" "exhibition" 300.
Definition delta : WorkItem := work "10" "Delta" "video" 200.

(** A record with no title and a category outside the enumeration. *)
Definition untitled : WorkItem := work "7" "" "poster" 0.

(** Two records of one date whose [id]s are U+1F600, a surrogate pair
    in UTF-16, and U+FF5E. *)
Definition grin : WorkItem := work "😀" "Grin" "brand" 200.
Definition tilde : WorkItem := work "～" "Tilde" "brand" 200.

(** The handle every resolved [initDB] hands back. *)
Definition handle : IDBDatabase :=
  {| db_name := DB_NAME; db_version := VERSION |}.

(** What an operation adds to the log: at most one call of each
    primitive, the [open] among them, and an error only in the last
    entry, which is the error the operation rejects with. *)
Definition once (Δ : list (Call * option DOMException))
    (r : option DOMException) : Prop :=
  reported Δ = match r with Some err => [err] | None => [] end ∧
  calls CallOpen Δ = 1 ∧
  ∀ c, (calls c Δ ≤ 1)%nat.

(** ** App.tsx *)

(** [ToastMessage] of types.ts. *)
Module Toast.
Inductive Kind := success | error.

Record Message := {
  id : Z;
  type : Kind;
  text : string
}.
End Toast.

(** The state of the [App] component, one field per [useState]; the
    filter is the string of a category, or ['all']. *)
Module App.
Record State := {
  works : list WorkItem;
  filter : string;
  isUploadModalOpen : bool;
  isMenuOpen : bool;
  activeWork : option WorkItem;
  toasts : list Toast.Message
}.
End App.

(** A [File]: a blob with a name; its [type] is that of the blob. *)
Record File := {
  file_blob : Blob;
  file_name : string
}.

(** The elements of the upload form, by name: the values of the text
    controls and the files chosen in the two file inputs. *)
Module Form.
Record Elements := {
  title : string;
  desc : string;
  category : string;
  cover : list File;
  file : list File
}.
End Form.

(** The page a handler runs in: the component state, the form, the
    engine, the clock ([clock n] is what the call number [n] of
    [Date.now()] returns, [reads] the number of calls made) and what
    was written to the console. *)
Record Page := {
  state : App.State;
  form : Form.Elements;
  indexedDB : IDBFactory;
  clock : nat → Z;
  reads : nat;
  console : list (string * DOMException)
}.

(** A handler: it runs on the page; an [await] inside it is run to the
    settlement of the promise. *)
Definition UI (A : Type) : Type := Page → A * Page.

#[export] Instance UI_ret : MRet UI := λ A a p, (a, p).

#[export] Instance UI_bind : MBind UI := λ A B k m p,
  let '(a, p') := m p in k a p'.

Definition Date_now : UI Z :=
  λ p, (clock p (reads p),
        {| state := state p; form := form p; indexedDB := indexedDB p;
           clock := clock p; reads := S (reads p); console := console p |}).

(** [try { ... await m ... } catch]: the settlement of [m], in hand. *)
Definition await {A} (m : Async A) : UI (Settled A) :=
  λ p, let '(r, e) := m (indexedDB p) in
       (r, {| state := state p; form := form p; indexedDB := e;
              clock := clock p; reads := reads p; console := console p |}).

Definition setState (f : App.State → App.State) : UI unit :=
  λ p, (tt, {| state := f (state p); form := form p;
               indexedDB := indexedDB p; clock := clock p;
               reads := reads p; console := console p |}).

Definition setWorks (data : list WorkItem) : UI unit :=
  setState (λ s,
    {| App.works := data; App.filter := App.filter s;
       App.isUploadModalOpen := App.isUploadModalOpen s;
       App.isMenuOpen := App.isMenuOpen s;
       App.activeWork := App.activeWork s; App.toasts := App.toasts s |}).

Definition setIsUploadModalOpen (b : bool) : UI unit :=
  setState (λ s,
    {| App.works := App.works s; App.filter := App.filter s;
       App.isUploadModalOpen := b;
       App.isMenuOpen := App.isMenuOpen s;
       App.activeWork := App.activeWork s; App.toasts := App.toasts s |}).

(** [setToasts(prev => f(prev))] *)
Definition setToasts (f : list Toast.Message → list Toast.Message) : UI unit :=
  setState (λ s,
    {| App.works := App.works s; App.filter := App.filter s;
       App.isUploadModalOpen := App.isUploadModalOpen s;
       App.isMenuOpen := App.isMenuOpen s;
       App.activeWork := App.activeWork s; App.toasts := f (App.toasts s) |}).

Definition console_error (msg : string) (e : DOMException) : UI unit :=
  λ p, (tt, {| state := state p; form := form p; indexedDB := indexedDB p;
               clock := clock p; reads := reads p;
               console := console p ++ [(msg, e)] |}).

(** [form.reset()]: the text controls empty, the select on its first
    option, no file chosen. *)
Definition form_reset : UI unit :=
  λ p, (tt, {| state := state p;
               form := {| Form.title := ""; Form.desc := "";
                          Form.category := Category_value BRAND;
                          Form.cover := []; Form.file := [] |};
               indexedDB := indexedDB p; clock := clock p;
               reads := reads p; console := console p |}).

Definition loadData : UI unit :=
  r ← await getAllWorks;
  match r with
  | Resolved data => setWorks data
  | Rejected e => console_error "Failed to load works" e
  end.

Definition addToast (text : string) (type : Toast.Kind) : UI unit :=
  now ← Date_now;
  setToasts (λ prev,
    prev ++ [{| Toast.id := now; Toast.text := text; Toast.type := type |}]).

Definition removeToast (id : Z) : UI unit :=
  setToasts (λ prev, filter (λ t, Toast.id t ≠ id) prev).

(** [n.toString()] of an integer: its decimal digits. *)
Definition toString (n : Z) : string := pretty n.

(** The record [handleUpload] makes of the form, the first file of each
    file input and two readings of the clock. *)
Definition newWork (f : Form.Elements) (coverFile contentFile : File)
    (id_now createdAt_now : Z) : WorkItem :=
  {| id := toString id_now;
     title := Form.title f;
     description := Form.desc f;
     category := Form.category f;
     coverBlob := file_blob coverFile;
     fileBlob := file_blob contentFile;
     fileName := file_name contentFile;
     fileType := blob_type (file_blob contentFile);
     createdAt := createdAt_now |}.

Definition handleUpload : UI unit :=
  λ p,
    match head (Form.cover (form p)), head (Form.file (form p)) with
    | Some coverFile, Some contentFile =>
        (id_now ← Date_now;
         createdAt_now ← Date_now;
         saved ← await (saveWork (newWork (form p) coverFile contentFile
                                          id_now createdAt_now));
         match saved with
         | Resolved _ =>
             loadData;;
             setIsUploadModalOpen false;;
             addToast "作品发布成功！" Toast.success;;
             form_reset
         | Rejected _ => addToast "保存失败，可能是文件过大" Toast.error
         end) p
    | _, _ => addToast "请上传完整的封面和内容文件" Toast.error p
    end.

(** The user fills the form in and submits it; and does so for each
    form of a list. *)
Definition fill (f : Form.Elements) (p : Page) : Page :=
  {| state := state p; form := f; indexedDB := indexedDB p;
     clock := clock p; reads := reads p; console := console p |}.

Definition submit (f : Form.Elements) : UI unit :=
  λ p, handleUpload (fill f p).

Fixpoint submit_all (fs : list Form.Elements) : UI unit :=
  match fs with
  | [] => mret tt
  | f :: r => submit f;; submit_all r
  end.

(** A form with a file in each file input. *)
Definition complete (f : Form.Elements) : Prop :=
  match Form.cover f, Form.file f with
  | _ :: _, _ :: _ => True
  | _, _ => False
  end.

(** The record a complete form is published as, at two readings of
    the clock. *)
Definition published (f : Form.Elements) (id_now createdAt_now : Z)
  : option WorkItem :=
  coverFile ← head (Form.cover f);
  contentFile ← head (Form.file f);
  Some (newWork f coverFile contentFile id_now createdAt_now).

(** [filteredWorks], computed at each render. *)
Definition filteredWorks (s : App.State) : list WorkItem :=
  if bool_decide (App.filter s = "all") then App.works s
  else filter (λ w, category w = App.filter s) (App.works s).

(** The gallery under the tab [f]. *)
Definition tab (f : string) (ws : list WorkItem) : list WorkItem :=
  filteredWorks
    {| App.works := ws; App.filter := f; App.isUploadModalOpen := false;
       App.isMenuOpen := false; App.activeWork := None; App.toasts := [] |}.

(** *** WorkViewer *)

(** [s.split(sep)] for a separator of one character. *)
Fixpoint String_split (sep : Ascii.ascii) (s : string) : list string :=
  match s with
  | EmptyString => [""]
  | String c r =>
      if bool_decide (c = sep) then "" :: String_split sep r
      else match String_split sep r with
           | [] => [String c ""]
           | h :: t => String c h :: t
           end
  end.

(** The characters of a string. *)
Fixpoint chars (s : string) : list Ascii.ascii :=
  match s with
  | EmptyString => []
  | String c r => c :: chars r
  end.

(** [arr.pop()], for its value: the last element, [undefined] on an
    empty array. *)
Definition pop (arr : list string) : option string := last arr.

(** What [renderContent] shows: the image, the PDF in a frame, or the
    card that offers the download and names the format. *)
Inductive Content :=
  | ImageView
  | PdfFrame
  | DownloadCard (format : option string).

Definition renderContent (work : WorkItem) : Content :=
  if String.prefix "image/" (fileType work) then ImageView
  else if bool_decide (fileType work = "application/pdf") then PdfFrame
  else DownloadCard (pop (String_split "."%char (fileName work))).

(** The object URLs of the document: the blob each live URL stands for
    (a URL is modelled by its number in order of issue) and the number
    issued; and the [overflow] style of the body. *)
Record Document := {
  object_urls : gmap nat Blob;
  issued : nat;
  body_overflow : string
}.

Definition createObjectURL (b : Blob) (d : Document) : nat * Document :=
  (issued d,
   {| object_urls := <[issued d := b]> (object_urls d);
      issued := S (issued d); body_overflow := body_overflow d |}).

Definition revokeObjectURL (url : nat) (d : Document) : Document :=
  {| object_urls := delete url (object_urls d);
     issued := issued d; body_overflow := body_overflow d |}.

Definition set_body_overflow (v : string) (d : Document) : Document :=
  {| object_urls := object_urls d; issued := issued d; body_overflow := v |}.

(** The effect of [WorkViewer]: it yields the URL it sets as [fileUrl]
    and its cleanup. *)
Definition WorkViewer_effect (work : WorkItem) (d : Document)
  : (nat * (Document → Document)) * Document :=
  let '(url, d1) := createObjectURL (fileBlob work) d in
  let d2 := set_body_overflow "hidden" d1 in
  ((url, λ d', set_body_overflow "auto" (revokeObjectURL url d')), d2).

(** The URLs one render of the gallery makes, one for the cover of
    each work shown; the placeholder is rendered instead when there is
    no work at all. *)
Fixpoint cover_urls (ws : list WorkItem) (d : Document)
  : list nat * Document :=
  match ws with
  | [] => ([], d)
  | w :: r =>
      let '(url, d1) := createObjectURL (coverBlob w) d in
      let '(urls, d2) := cover_urls r d1 in
      (url :: urls, d2)
  end.

Definition render_gallery (s : App.State) (d : Document)
  : list nat * Document :=
  if (length (App.works s) =? 0)%nat then ([], d)
  else cover_urls (filteredWorks s) d.

(** Every live URL was issued. *)
Definition urls_ok (d : Document) : Prop :=
  map_Forall (λ url _, url < issued d) (object_urls d).

(** [k] renders of the gallery in a row. *)
Fixpoint renders (k : nat) (s : App.State) (d : Document) : Document :=
  match k with
  | O => d
  | S k' => renders k' s (render_gallery s d).2
  end.

(** Sample files, forms and clock: a reading every millisecond. *)
Definition cover_png : File := {| file_blob := png; file_name := "cover.png" |}.

Definition deck : File :=
  {| file_blob := {| blob_type := "application/vnd.ms-powerpoint";
                     blob_bytes := [Byte.xd0; Byte.xcf] |};
     file_name := "deck.v2.ppt" |}.

Definition entry (t c : string) : Form.Elements :=
  {| Form.title := t; Form.desc := ""; Form.category := c;
     Form.cover := [cover_png]; Form.file := [deck] |}.

Definition ticking (n : nat) : Z := 1700000000000 + Z.of_nat n.

(** A clock that stands still. *)
Definition frozen (n : nat) : Z := 1700000000000.

(** A page on a profile never used, nothing chosen in the form. *)
Definition blank (now : nat → Z) : Page :=
  {| state := {| App.works := []; App.filter := "all";
                 App.isUploadModalOpen := false; App.isMenuOpen := false;
                 App.activeWork := None; App.toasts := [] |};
     form := {| Form.title := ""; Form.desc := "";
                Form.category := Category_value BRAND;
                Form.cover := []; Form.file := [] |};
     indexedDB := fresh; clock := now; reads := 0; console := [] |}.

(** * Properties *)

(** ** Array.prototype.sort with the comparator of [getAllWorks] *)

Section Array_sort_facts.
Context {A : Type} (compareFn : A → A → Z).

Lemma sort_insert_Permutation x l :
  sort_insert compareFn x l ≡ₚ x :: l.
Proof.
  induction l as [|y r IH]; simpl; [done|].
  destruct (compareFn x y <=? 0)%Z; [done|].
  rewrite IH. apply Permutation_swap.
Qed.

Lemma Array_sort_Permutation l : Array_sort compareFn l ≡ₚ l.
Proof.
  induction l as [|x r IH]; simpl; [done|].
  by rewrite sort_insert_Permutation, IH.
Qed.

(** A relation [R] the sort establishes: [x] is put in front of the
    first [y] with [compareFn x y <= 0], and behind those with
    [compareFn x y > 0]. *)
Context (R : relation A).
Hypothesis R_front : ∀ x y, (compareFn x y <= 0)%Z → R x y.
Hypothesis R_behind : ∀ x y, (0 < compareFn x y)%Z → R y x.

Lemma sort_insert_Sorted x l :
  Sorted R l → Sorted R (sort_insert compareFn x l).
Proof.
  induction 1 as [|y r Hr IH Hhd]; simpl.
  - by repeat constructor.
  - destruct (compareFn x y <=? 0)%Z eqn:Hc.
    + apply Z.leb_le in Hc. repeat constructor; auto.
    + apply Z.leb_gt in Hc. constructor; [done|].
      destruct Hhd as [|z r' Hyz]; simpl.
      * constructor. auto.
      * destruct (compareFn x z <=? 0)%Z; constructor; auto.
Qed.

Lemma Array_sort_Sorted l : Sorted R (Array_sort compareFn l).
Proof.
  induction l as [|x r IH]; simpl; [constructor|].
  by apply sort_insert_Sorted.
Qed.
End Array_sort_facts.

Lemma listing_descending m :
  Sorted (λ a b, (createdAt a >= createdAt b)%Z) (listing m).
Proof.
  apply (Array_sort_Sorted by_date_descending);
    unfold by_date_descending; intros; lia.
Qed.

(** ** The monad *)

Lemma bind_resolved {A B} (m : Async A) (k : A → Async B) e a e1 :
  m e = (Resolved a, e1) → (m ≫= k) e = k a e1.
Proof. intros H. unfold mbind, Async_bind. by rewrite H. Qed.

Lemma bind_rejected {A B} (m : Async A) (k : A → Async B) e err e1 :
  m e = (Rejected err, e1) → (m ≫= k) e = (Rejected err, e1).
Proof. intros H. unfold mbind, Async_bind. by rewrite H. Qed.

Lemma bind_inv {A B} (m : Async A) (k : A → Async B) e r e' :
  (m ≫= k) e = (r, e') →
  (∃ a e1, m e = (Resolved a, e1) ∧ k a e1 = (r, e')) ∨
  (∃ err, m e = (Rejected err, e') ∧ r = Rejected err).
Proof.
  unfold mbind, Async_bind. destruct (m e) as [[a|err] e1]; intros H.
  - left. eauto.
  - right. exists err. by simplify_eq.
Qed.

(** ** The engine's primitives *)

Lemma contains_Some d n : contains d n = true ↔ is_Some (objectStores d !! n).
Proof. unfold contains. apply bool_decide_eq_true. Qed.

Lemma contains_None d n : contains d n = false ↔ objectStores d !! n = None.
Proof. unfold contains. by rewrite bool_decide_eq_false, eq_None_not_Some. Qed.

(** The upgrade handler never throws: it creates the store only when
    it is not there. *)
Lemma onupgradeneeded_inr d :
  onupgradeneeded d =
    inr (if contains d STORE_NAME then d
         else {| version := version d;
                 objectStores :=
                   <[STORE_NAME := {| keyPath := "id"; records := ∅ |}]>
                     (objectStores d) |}).
Proof.
  unfold onupgradeneeded, createObjectStore.
  by destruct (contains d STORE_NAME).
Qed.

Lemma works_lookup e d :
  databases e !! DB_NAME = Some d →
  works e = default ∅ (records <$> objectStores d !! STORE_NAME).
Proof. unfold works. intros ->. simpl. by destruct (objectStores d !! STORE_NAME). Qed.

Lemma works_absent e : databases e !! DB_NAME = None → works e = ∅.
Proof. unfold works. by intros ->. Qed.

Lemma initDB_logs : logs CallOpen initDB.
Proof.
  intros e. unfold initDB, indexedDB_open, next_fault.
  destruct (faults e) as [|[err|] fs]; simpl; rewrite ?onupgradeneeded_inr;
    repeat case_match; done.
Qed.

Lemma transaction_logs db names mode : logs CallTransaction (transaction db names mode).
Proof. intros e. unfold transaction. repeat case_match; done. Qed.

Lemma objectStore_logs tx name : logs CallObjectStore (objectStore tx name).
Proof. intros e. unfold objectStore. case_match; done. Qed.

Lemma add_logs store w : logs CallAdd (add store w).
Proof.
  intros e. unfold add, next_fault.
  destruct (faults e) as [|[err|] fs]; repeat case_match; simplify_eq/=; done.
Qed.

Lemma getAll_logs store : logs CallGetAll (getAll store).
Proof.
  intros e. unfold getAll, next_fault.
  destruct (faults e) as [|[err|] fs]; repeat case_match; simplify_eq/=; done.
Qed.

Lemma store_ok_spec e :
  store_ok e ↔
  ∀ d, databases e !! DB_NAME = Some d →
    version d = VERSION ∧
    ∃ s, objectStores d !! STORE_NAME = Some s ∧
         keyPath s = "id" ∧
         ∀ k w, records s !! k = Some w → id w = k.
Proof.
  unfold store_ok. destruct (databases e !! DB_NAME) as [d|]; [|done].
  split.
  - intros [Hv Hs] ? [= <-]. split; [done|].
    destruct (objectStores d !! STORE_NAME) as [s|]; [|done].
    destruct Hs as [Hkp Hall]. by exists s.
  - intros H. destruct (H d eq_refl) as (Hv & s & -> & Hkp & Hall). done.
Qed.

(** ** Later states *)

Lemma later_refl e : later e e.
Proof. unfold later. auto. Qed.

Lemma later_trans e1 e2 e3 : later e1 e2 → later e2 e3 → later e1 e3.
Proof. intros (?&?&?) (?&?&?). unfold later. auto. Qed.

Lemma works_databases e e' : databases e' = databases e → works e' = works e.
Proof. unfold works. by intros ->. Qed.

Lemma store_ok_databases e e' :
  databases e' = databases e → store_ok e → store_ok e'.
Proof. unfold store_ok. by intros ->. Qed.

Lemma later_same e e' :
  databases e' = databases e → (faults e = [] → faults e' = []) → later e e'.
Proof.
  intros Hd Hf. split; [|split]; [| |done].
  - by rewrite (works_databases _ _ Hd).
  - by apply store_ok_databases.
Qed.

Lemma bind_advances {A B} (m : Async A) (k : A → Async B) :
  advances m → (∀ a, advances (k a)) → advances (m ≫= k).
Proof.
  intros Hm Hk e. unfold mbind, Async_bind.
  specialize (Hm e). destruct (m e) as [[a|err] e1]; [|done].
  eapply later_trans; [done|]. apply Hk.
Qed.

Lemma ret_advances {A} (a : A) : advances (mret a).
Proof. intros e. apply later_refl. Qed.

Lemma initDB_works e : works (initDB e).2 = works e.
Proof.
  unfold initDB, indexedDB_open, next_fault.
  destruct (faults e) as [|[err|] fs]; simpl; [|done|].
  all: rewrite onupgradeneeded_inr; simpl.
  all: destruct (databases e !! DB_NAME) as [d|] eqn:Hd; simpl.
  all: repeat case_match; simpl; try done.
  all: unfold works; simpl; rewrite ?lookup_insert_eq, ?Hd; simpl.
  all: try (match goal with H : contains _ _ = _ |- _ =>
         first [apply contains_Some in H as [? H]|apply contains_None in H];
         simpl in H; rewrite ?H end); simpl.
  all: by rewrite ?lookup_insert_eq.
Qed.

(** Opening a database that is at [VERSION] changes nothing. *)
Lemma initDB_noop e d :
  databases e !! DB_NAME = Some d → version d = VERSION →
  databases (initDB e).2 = databases e.
Proof.
  intros Hd Hv. unfold initDB, indexedDB_open, next_fault.
  destruct (faults e) as [|[err|] fs]; simpl; [|done|].
  all: by rewrite Hd; simpl; rewrite Hv.
Qed.

Lemma initDB_store_ok e : store_ok e → store_ok (initDB e).2.
Proof.
  intros Hok. destruct (databases e !! DB_NAME) as [d|] eqn:Hd.
  - destruct (proj1 (store_ok_spec e) Hok d Hd) as [Hv _].
    eapply store_ok_databases; [|done]. by eapply initDB_noop.
  - unfold initDB, indexedDB_open, next_fault.
    destruct (faults e) as [|[err|] fs]; simpl.
    2: by eapply store_ok_databases.
    all: rewrite onupgradeneeded_inr, Hd; simpl.
    all: apply store_ok_spec.
    all: intros d'; simpl; rewrite lookup_insert_eq; intros [= <-].
    all: destruct (contains _ _) eqn:Hc;
      [apply contains_Some in Hc as [? Hc]; simpl in Hc;
       by rewrite lookup_empty in Hc|]; simpl.
    all: split; [done|]; eexists; rewrite lookup_insert_eq; split; [done|].
    all: split; [done|]; intros k w ?; simplify_map_eq.
Qed.

Lemma initDB_faults e : faults (initDB e).2 = tail (faults e).
Proof.
  unfold initDB, indexedDB_open, next_fault.
  destruct (faults e) as [|[err|] fs] eqn:Hf; simpl; rewrite ?onupgradeneeded_inr;
    repeat case_match; simpl; done.
Qed.

Lemma initDB_advances : advances initDB.
Proof.
  intros e. split; [|split].
  - by rewrite initDB_works.
  - apply initDB_store_ok.
  - rewrite initDB_faults. by intros ->.
Qed.

Lemma transaction_state db names mode e :
  databases (transaction db names mode e).2 = databases e ∧
  faults (transaction db names mode e).2 = faults e.
Proof. unfold transaction. repeat case_match; done. Qed.

Lemma objectStore_state tx name e :
  databases (objectStore tx name e).2 = databases e ∧
  faults (objectStore tx name e).2 = faults e.
Proof. unfold objectStore. case_match; done. Qed.

Lemma transaction_advances db names mode : advances (transaction db names mode).
Proof.
  intros e. destruct (transaction_state db names mode e) as [Hd Hf].
  apply later_same; [done|]. by rewrite Hf.
Qed.

Lemma objectStore_advances tx name : advances (objectStore tx name).
Proof.
  intros e. destruct (objectStore_state tx name e) as [Hd Hf].
  apply later_same; [done|]. by rewrite Hf.
Qed.

Lemma getAll_state store e :
  databases (getAll store e).2 = databases e ∧
  (faults e = [] → faults (getAll store e).2 = []).
Proof.
  unfold getAll, next_fault.
  destruct (store_data store e) as [[d s]|]; [|done].
  destruct (faults e) as [|[err|] fs] eqn:Hf; simpl; split; done.
Qed.

Lemma getAll_advances store : advances (getAll store).
Proof.
  intros e. destruct (getAll_state store e) as [Hd Hf]. by apply later_same.
Qed.

Lemma extract_key_id w : extract_key "id" w = Some (id w).
Proof. done. Qed.

(** What writing one record does to the collection. *)
Lemma add_record_later e e' dbn osn d s k w :
  databases e !! dbn = Some d →
  objectStores d !! osn = Some s →
  extract_key (keyPath s) w = Some k →
  records s !! k = None →
  databases e' =
    <[dbn := {| version := version d;
                objectStores :=
                  <[osn := {| keyPath := keyPath s;
                              records := <[k := w]> (records s) |}]>
                    (objectStores d) |}]> (databases e) →
  (faults e = [] → faults e' = []) →
  later e e'.
Proof.
  intros Hd Hs Hk Hfree He' Hf. split; [|split]; [| |done].
  - intros k0 w0. unfold works. rewrite He'.
    destruct (decide (dbn = DB_NAME)) as [->|Hne].
    + rewrite lookup_insert_eq, Hd. simpl.
      destruct (decide (osn = STORE_NAME)) as [->|Hne].
      * rewrite lookup_insert_eq, Hs. simpl. intros H0.
        rewrite lookup_insert_ne; [done|]. intros <-. congruence.
      * by rewrite lookup_insert_ne.
    + by rewrite lookup_insert_ne.
  - rewrite !store_ok_spec. rewrite He'. intros Hok d0.
    destruct (decide (dbn = DB_NAME)) as [->|Hne].
    + rewrite lookup_insert_eq. intros [= <-]. simpl.
      destruct (Hok d Hd) as (Hv & s0 & Hs0 & Hkp & Hkeyed).
      split; [done|].
      destruct (decide (osn = STORE_NAME)) as [->|Hne].
      * rewrite lookup_insert_eq. eexists. split; [done|]. simpl.
        assert (s0 = s) as -> by congruence.
        split; [done|]. intros k1 w1.
        rewrite Hkp, extract_key_id in Hk. injection Hk as <-.
        destruct (decide (id w = k1)) as [<-|Hne].
        -- rewrite lookup_insert_eq. by intros [= <-].
        -- rewrite lookup_insert_ne; [apply Hkeyed|done].
      * rewrite lookup_insert_ne; [|done]. eauto.
    + rewrite lookup_insert_ne; [apply Hok|done].
Qed.

(** [add] writes at most one record, under a key that was free; in the
    collection of this program, whose records are filed under their
    [id], that key is the [id] of the value. *)
Lemma add_advances store w : advances (add store w).
Proof.
  intros e. unfold add, next_fault.
  destruct (tx_mode _); [by apply later_same|].
  destruct (store_data store e) as [[d s]|] eqn:Hsd; [|by apply later_same].
  destruct (extract_key _ _) as [k|] eqn:Hk; [|by apply later_same].
  unfold store_data in Hsd.
  destruct (databases e !! _) as [d0|] eqn:Hd; simpl in Hsd; [|done].
  destruct (objectStores d0 !! _) as [s0|] eqn:Hs; simplify_eq/=.
  destruct (faults e) as [|[err|] fs] eqn:Hf; simpl.
  2: apply later_same; [done|by rewrite Hf].
  all: destruct (records s !! k) eqn:Hr; simpl;
    [apply later_same; [done|by rewrite Hf]|].
  all: eapply add_record_later; simpl; eauto; by rewrite Hf.
Qed.

(** ** The three operations only move the engine to later states *)

Lemma saveWork_advances w : advances (saveWork w).
Proof.
  unfold saveWork.
  apply bind_advances; [apply initDB_advances|]. intros db.
  apply bind_advances; [apply transaction_advances|]. intros tx.
  apply bind_advances; [apply objectStore_advances|]. intros store.
  apply add_advances.
Qed.

Lemma getAllWorks_advances : advances getAllWorks.
Proof.
  unfold getAllWorks.
  apply bind_advances; [apply initDB_advances|]. intros db.
  apply bind_advances; [apply transaction_advances|]. intros tx.
  apply bind_advances; [apply objectStore_advances|]. intros store.
  apply bind_advances; [apply getAll_advances|]. intros result.
  apply ret_advances.
Qed.

Lemma exec_later o e : later e (exec o e).
Proof.
  destruct o; simpl.
  - apply initDB_advances.
  - apply saveWork_advances.
  - apply getAllWorks_advances.
Qed.

Lemma exec_all_later os e : later e (exec_all os e).
Proof.
  revert e. induction os as [|o os IH]; intros e; simpl.
  - apply later_refl.
  - eapply later_trans; [apply exec_later|apply IH].
Qed.

(** ** Running the operations on a platform that works *)

(** The handle [initDB] resolves with. *)
Lemma initDB_handle e db e1 :
  initDB e = (Resolved db, e1) →
  db = handle.
Proof.
  unfold initDB, indexedDB_open, next_fault.
  destruct (faults e) as [|[err|] fs]; simpl; rewrite ?onupgradeneeded_inr;
    repeat case_match; unfold report; simpl; intros ?; by simplify_eq/=.
Qed.

(** [initDB] when the platform does not fail the request: it resolves
    with the handle, and the database is there with the store. *)
Lemma initDB_opens e :
  (next_fault e).1 = None → store_ok e →
  ∃ e1 d s,
    initDB e = (Resolved handle, e1) ∧
    faults e1 = tail (faults e) ∧
    databases e1 !! DB_NAME = Some d ∧
    objectStores d !! STORE_NAME = Some s ∧
    keyPath s = "id" ∧
    records s = works e ∧
    (∀ k v, records s !! k = Some v → id v = k) ∧
    (is_Some (databases e !! DB_NAME) → databases e1 = databases e).
Proof.
  intros Hf Hok. pose proof (proj1 (store_ok_spec e) Hok) as Hok'.
  clear Hok. rename Hok' into Hok.
  unfold initDB, indexedDB_open. unfold next_fault in *.
  destruct (faults e) as [|[err|] fs] eqn:Hfe; simpl in *; [|done|].
  all: rewrite onupgradeneeded_inr; simpl.
  all: destruct (databases e !! DB_NAME) as [d|] eqn:Hd; simpl.
  all: try (destruct (Hok d eq_refl) as (Hv & s & Hs & Hkp & Hkeyed);
            rewrite Hv; simpl; eexists _, d, s; split; [done|]; simpl;
            repeat split; try done;
            by rewrite (works_lookup _ _ Hd), Hs).
  all: eexists _, _, _; split; [done|]; simpl; rewrite lookup_insert_eq.
  all: split; [done|]; split; [done|].
  all: assert (contains {| version := VERSION; objectStores := ∅ |} STORE_NAME
            = false) as -> by by apply contains_None.
  all: simpl; rewrite lookup_insert_eq; split; [done|]; simpl.
  all: rewrite (works_absent _ Hd).
  all: repeat split; done.
Qed.

Lemma initDB_ok e :
  faults e = [] → store_ok e →
  ∃ e1 d s,
    initDB e = (Resolved handle, e1) ∧
    faults e1 = [] ∧
    databases e1 !! DB_NAME = Some d ∧
    objectStores d !! STORE_NAME = Some s ∧
    keyPath s = "id" ∧
    records s = works e ∧
    (∀ k v, records s !! k = Some v → id v = k) ∧
    (is_Some (databases e !! DB_NAME) → databases e1 = databases e).
Proof.
  intros Hf Hok. destruct (initDB_opens e) as (e1 & d & s & H & Hf1 & Hrest).
  - unfold next_fault. by rewrite Hf.
  - done.
  - rewrite Hf in Hf1. by exists e1, d, s.
Qed.

Lemma transaction_ok mode e d :
  databases e !! DB_NAME = Some d →
  is_Some (objectStores d !! STORE_NAME) →
  transaction handle
              [STORE_NAME] mode e =
    report CallTransaction
      (Resolved {| tx_db := DB_NAME; tx_scope := [STORE_NAME];
                   tx_mode := mode |}) e.
Proof.
  intros Hd Hs. unfold transaction. simpl. rewrite Hd. simpl.
  apply contains_Some in Hs. by rewrite Hs.
Qed.

Lemma objectStore_ok mode e :
  objectStore {| tx_db := DB_NAME; tx_scope := [STORE_NAME]; tx_mode := mode |}
              STORE_NAME e =
    report CallObjectStore
      (Resolved {| os_transaction :=
                     {| tx_db := DB_NAME; tx_scope := [STORE_NAME];
                        tx_mode := mode |};
                   os_name := STORE_NAME |}) e.
Proof. done. Qed.

(** [saveWork] on a platform that works: it resolves when the [id] is
    free, and the record is then in the collection under its [id]; it
    rejects with [ConstraintError] when the [id] is taken, and the
    databases are then what they were. *)
Lemma saveWork_run w e :
  faults e = [] → store_ok e →
  match works e !! id w with
  | None =>
      (saveWork w e).1 = Resolved tt ∧
      works (saveWork w e).2 = <[id w := w]> (works e)
  | Some _ =>
      (saveWork w e).1 = Rejected ConstraintError ∧
      databases (saveWork w e).2 = databases e
  end.
Proof.
  intros Hf Hok.
  destruct (initDB_ok e Hf Hok)
    as (e1 & d & s & Hinit & Hf1 & Hd & Hs & Hkp & Hrec & Hkeyed & Hsame).
  unfold saveWork.
  rewrite (bind_resolved _ _ _ _ _ Hinit).
  erewrite bind_resolved; [|by eapply transaction_ok].
  erewrite bind_resolved; [|by apply objectStore_ok].
  unfold add, store_data, next_fault. simpl. rewrite Hd. simpl.
  rewrite Hs. simpl. rewrite Hkp, extract_key_id, Hf1, Hrec.
  destruct (works e !! id w) as [w0|] eqn:Hw; simpl.
  - split; [done|]. apply Hsame.
    destruct (databases e !! DB_NAME) eqn:Hd0; [done|].
    by rewrite (works_absent _ Hd0) in Hw.
  - split; [done|]. unfold works. simpl. rewrite lookup_insert_eq. simpl.
    by rewrite lookup_insert_eq.
Qed.

(** What the primitives resolve with, on any engine. *)
Lemma transaction_resolved db names mode e tx e1 :
  transaction db names mode e = (Resolved tx, e1) →
  tx = {| tx_db := db_name db; tx_scope := names; tx_mode := mode |} ∧
  databases e1 = databases e.
Proof.
  unfold transaction, report. repeat case_match; intros ?; by simplify_eq/=.
Qed.

Lemma objectStore_resolved tx name e store e1 :
  objectStore tx name e = (Resolved store, e1) →
  store = {| os_transaction := tx; os_name := name |} ∧
  databases e1 = databases e.
Proof.
  unfold objectStore, report. case_match; intros ?; by simplify_eq/=.
Qed.

Lemma store_data_works mode e :
  store_data {| os_transaction :=
                  {| tx_db := DB_NAME; tx_scope := [STORE_NAME];
                     tx_mode := mode |};
                os_name := STORE_NAME |} e = None ∨
  ∃ d s, store_data {| os_transaction :=
                  {| tx_db := DB_NAME; tx_scope := [STORE_NAME];
                     tx_mode := mode |};
                os_name := STORE_NAME |} e = Some (d, s) ∧
         databases e !! DB_NAME = Some d ∧
         objectStores d !! STORE_NAME = Some s ∧
         works e = records s.
Proof.
  unfold store_data, works. simpl.
  destruct (databases e !! DB_NAME) as [d|] eqn:Hd; simpl; [|by left].
  destruct (objectStores d !! STORE_NAME) as [s|] eqn:Hs; simpl; [|by left].
  right. exists d, s. repeat split; done.
Qed.

Lemma getAll_resolved mode e l e1 :
  getAll {| os_transaction :=
              {| tx_db := DB_NAME; tx_scope := [STORE_NAME]; tx_mode := mode |};
            os_name := STORE_NAME |} e = (Resolved l, e1) →
  l = (snd <$> merge_sort key_le (map_to_list (works e))) ∧
  databases e1 = databases e.
Proof.
  unfold getAll, next_fault, report.
  destruct (store_data_works mode e) as [->|(d & s & -> & _ & _ & ->)];
    [done|].
  destruct (faults e) as [|[err|] fs]; simpl; intros ?; by simplify_eq/=.
Qed.

Lemma add_resolved mode w e e1 :
  add {| os_transaction :=
           {| tx_db := DB_NAME; tx_scope := [STORE_NAME]; tx_mode := mode |};
         os_name := STORE_NAME |} w e = (Resolved tt, e1) →
  ∃ k, works e !! k = None ∧ works e1 = <[k := w]> (works e).
Proof.
  unfold add, next_fault, report. simpl. destruct mode; [done|].
  destruct (store_data_works readwrite e) as [->|(d & s & -> & Hd & Hs & ->)];
    [done|].
  destruct (extract_key _ _) as [k|]; [|done].
  destruct (faults e) as [|[err|] fs]; simpl; try done.
  all: destruct (records s !! k) eqn:Hk; simpl; intros ?; simplify_eq/=.
  all: exists k; split; [done|]; unfold works; simpl.
  all: by rewrite lookup_insert_eq; simpl; rewrite lookup_insert_eq.
Qed.

(** A record [saveWork] resolved for is in the collection. *)
Lemma saveWork_stored w e e' :
  saveWork w e = (Resolved tt, e') →
  ∃ k, works e !! k = None ∧ works e' = <[k := w]> (works e).
Proof.
  unfold saveWork. intros H.
  apply bind_inv in H as [(db & e1 & H1 & H)|(? & _ & [=])].
  apply bind_inv in H as [(tx & e2 & H2 & H)|(? & _ & [=])].
  apply bind_inv in H as [(store & e3 & H3 & H)|(? & _ & [=])].
  apply initDB_handle in H1 as Hdb. subst db.
  pose proof (initDB_works e) as Hw1. rewrite H1 in Hw1. simpl in Hw1.
  apply transaction_resolved in H2 as [-> Hd2].
  apply objectStore_resolved in H3 as [-> Hd3].
  apply add_resolved in H.
  by rewrite (works_databases _ _ Hd3), (works_databases _ _ Hd2), Hw1 in H.
Qed.

(** What [getAllWorks] resolves with, on any engine. *)
Lemma getAllWorks_listing e l e' :
  getAllWorks e = (Resolved l, e') → l = listing (works e) ∧ works e' = works e.
Proof.
  unfold getAllWorks. intros H.
  apply bind_inv in H as [(db & e1 & H1 & H)|(? & _ & [=])].
  apply bind_inv in H as [(tx & e2 & H2 & H)|(? & _ & [=])].
  apply bind_inv in H as [(store & e3 & H3 & H)|(? & _ & [=])].
  apply bind_inv in H as [(result & e4 & H4 & H)|(? & _ & [=])].
  injection H as <- <-.
  apply initDB_handle in H1 as Hdb. subst db.
  pose proof (initDB_works e) as Hw1. rewrite H1 in Hw1. simpl in Hw1.
  apply transaction_resolved in H2 as [-> Hd2].
  apply objectStore_resolved in H3 as [-> Hd3].
  apply getAll_resolved in H4 as [-> Hd4].
  rewrite (works_databases _ _ Hd4).
  by rewrite (works_databases _ _ Hd3), (works_databases _ _ Hd2), Hw1.
Qed.

(** [getAllWorks] on a platform that works. *)
Lemma getAllWorks_run e :
  faults e = [] → store_ok e →
  (getAllWorks e).1 = Resolved (listing (works e)).
Proof.
  intros Hf Hok.
  destruct (initDB_ok e Hf Hok)
    as (e1 & d & s & Hinit & Hf1 & Hd & Hs & Hkp & Hrec & Hkeyed & Hsame).
  unfold getAllWorks.
  rewrite (bind_resolved _ _ _ _ _ Hinit).
  erewrite bind_resolved; [|by eapply transaction_ok].
  erewrite bind_resolved; [|by apply objectStore_ok].
  unfold mbind, Async_bind, getAll, store_data, next_fault. simpl.
  rewrite Hd. simpl. rewrite Hs. simpl. rewrite Hf1. simpl.
  by rewrite Hrec.
Qed.

(** ** The order of the listing *)

Lemma units_compare_antisym l1 l2 :
  units_compare l1 l2 = CompOpp (units_compare l2 l1).
Proof.
  revert l2. induction l1 as [|u1 r1 IH]; intros [|u2 r2]; simpl; try done.
  rewrite (N.compare_antisym u2 u1). destruct (u2 ?= u1)%N; simpl; auto.
Qed.

Lemma units_compare_eq l1 l2 : units_compare l1 l2 = Eq → l1 = l2.
Proof.
  revert l2. induction l1 as [|u1 r1 IH]; intros [|u2 r2]; simpl; try done.
  destruct (u1 ?= u2)%N eqn:Hu; try done.
  apply N.compare_eq in Hu as ->. intros H. by rewrite (IH _ H).
Qed.

Lemma units_compare_refl l : units_compare l l = Eq.
Proof. induction l as [|u r IH]; simpl; [done|]. by rewrite N.compare_refl. Qed.

Lemma units_compare_lt_trans l1 l2 l3 :
  units_compare l1 l2 = Lt → units_compare l2 l3 = Lt →
  units_compare l1 l3 = Lt.
Proof.
  revert l2 l3.
  induction l1 as [|u1 r1 IH]; intros [|u2 r2] [|u3 r3]; simpl; try done.
  destruct (u1 ?= u2)%N eqn:H12; try done.
  - apply N.compare_eq in H12 as ->.
    destruct (u2 ?= u3)%N; try done. apply IH.
  - destruct (u2 ?= u3)%N eqn:H23; try done.
    + apply N.compare_eq in H23 as <-. by rewrite H12.
    + intros _ _. apply N.compare_lt_iff in H12. apply N.compare_lt_iff in H23.
      by rewrite (proj2 (N.compare_lt_iff u1 u3) (N.lt_trans _ _ _ H12 H23)).
Qed.

Lemma string_compare_lt_trans s t u :
  String.compare s t = Lt → String.compare t u = Lt → String.compare s u = Lt.
Proof.
  intros Hst Htu.
  assert (String.le s u) as Hle.
  { trans t; unfold String.le, String.leb; [by rewrite Hst|by rewrite Htu]. }
  unfold String.le, String.leb in Hle.
  destruct (String.compare s u) eqn:Hsu; [|done|done].
  apply String.compare_eq_iff in Hsu as ->.
  rewrite String.compare_antisym, Htu in Hst. done.
Qed.

Lemma key_compare_antisym s t : key_compare s t = CompOpp (key_compare t s).
Proof.
  unfold key_compare. rewrite (units_compare_antisym (utf16 s)).
  destruct (units_compare (utf16 t) (utf16 s)); simpl; [|done|done].
  apply String.compare_antisym.
Qed.

Lemma key_compare_eq s t : key_compare s t = Eq → s = t.
Proof.
  unfold key_compare. destruct (units_compare _ _); [|done|done].
  apply String.compare_eq_iff.
Qed.

Lemma key_compare_lt_trans s t u :
  key_compare s t = Lt → key_compare t u = Lt → key_compare s u = Lt.
Proof.
  unfold key_compare.
  destruct (units_compare (utf16 s) (utf16 t)) eqn:Hst; [|intros _|done].
  - apply units_compare_eq in Hst as Heq. rewrite Heq.
    destruct (units_compare (utf16 t) (utf16 u)); [|done|done].
    apply string_compare_lt_trans.
  - destruct (units_compare (utf16 t) (utf16 u)) eqn:Htu; [|intros _|done].
    + apply units_compare_eq in Htu as <-. by rewrite Hst.
    + by rewrite (units_compare_lt_trans _ _ _ Hst Htu).
Qed.

Lemma key_ltb_irrefl s : key_ltb s s = false.
Proof.
  unfold key_ltb. pose proof (key_compare_antisym s s) as H.
  by destruct (key_compare s s).
Qed.

Lemma key_ltb_asym s t : key_ltb s t = true → key_ltb t s = false.
Proof.
  unfold key_ltb. rewrite (key_compare_antisym s t).
  by destruct (key_compare t s).
Qed.

Lemma key_leb_ne_ltb s t : key_leb s t = true → s ≠ t → key_ltb s t = true.
Proof.
  unfold key_leb, key_ltb. intros Hle Hne.
  destruct (key_compare s t) eqn:Hc; [|done|done].
  by apply key_compare_eq in Hc.
Qed.

Lemma key_leb_trans s t u :
  key_leb s t = true → key_leb t u = true → key_leb s u = true.
Proof.
  unfold key_leb.
  destruct (key_compare s t) eqn:Hst; [|intros _|done].
  - by apply key_compare_eq in Hst as ->.
  - destruct (key_compare t u) eqn:Htu; [|intros _|done].
    + apply key_compare_eq in Htu as <-. by rewrite Hst.
    + by rewrite (key_compare_lt_trans _ _ _ Hst Htu).
Qed.

Lemma key_leb_total s t : key_leb s t = true ∨ key_leb t s = true.
Proof.
  unfold key_leb. rewrite (key_compare_antisym s t).
  destruct (key_compare t s); simpl; auto.
Qed.

#[export] Instance key_le_trans : Transitive key_le.
Proof. intros p q r. unfold key_le. apply key_leb_trans. Qed.

#[export] Instance key_le_total : Total key_le.
Proof. intros p q. unfold key_le. apply key_leb_total. Qed.

(** [getAll] hands the records over in strictly ascending order of
    their keys. *)
Lemma getAll_order (m : gmap string WorkItem) :
  StronglySorted (λ p q, key_ltb p.1 q.1 = true)
    (merge_sort key_le (map_to_list m)).
Proof.
  pose proof (StronglySorted_merge_sort key_le (map_to_list m)) as Hs.
  assert (NoDup (merge_sort key_le (map_to_list m)).*1) as Hnd.
  { rewrite merge_sort_Permutation. apply NoDup_fst_map_to_list. }
  induction Hs as [|p l Hl IH Hall]; [constructor|].
  apply NoDup_cons in Hnd as [Hp Hnd].
  constructor; [by apply IH|].
  apply Forall_forall. intros q Hq.
  apply key_leb_ne_ltb; [by eapply Forall_forall in Hall|].
  intros Heq. apply Hp. rewrite Heq. by apply list_elem_of_fmap_2.
Qed.

Lemma getAll_order_id (m : gmap string WorkItem) :
  (∀ k w, m !! k = Some w → id w = k) →
  StronglySorted (λ a b, key_ltb (id a) (id b) = true)
    ((merge_sort key_le (map_to_list m)).*2).
Proof.
  intros Hkeyed.
  assert (Forall (λ p, id p.2 = p.1) (merge_sort key_le (map_to_list m)))
    as Hid.
  { rewrite merge_sort_Permutation. apply Forall_forall.
    intros [k w] Hin. apply elem_of_map_to_list in Hin. by apply Hkeyed. }
  pose proof (getAll_order m) as Hs.
  induction Hs as [|p l Hl IH Hall]; [constructor|].
  apply Forall_cons in Hid as [Hp Hid]. simpl.
  constructor; [by apply IH|].
  apply Forall_fmap, Forall_forall. intros q Hq. simpl.
  rewrite Hp. eapply Forall_forall in Hid; [|done]. rewrite Hid.
  by eapply Forall_forall in Hall.
Qed.

(** The sort is stable: on records in ascending order of [id] it
    leaves those of one date in that order. *)
Lemma sort_insert_before x l :
  Forall (λ y, key_ltb (id x) (id y) = true) l →
  StronglySorted listed_before l →
  StronglySorted listed_before (sort_insert by_date_descending x l).
Proof.
  intros Hx Hl. induction Hl as [|y r Hr IH Hy]; simpl.
  - by repeat constructor.
  - apply Forall_cons in Hx as [Hxy Hxr].
    unfold by_date_descending at 1.
    destruct (createdAt y - createdAt x <=? 0)%Z eqn:Hc.
    + apply Z.leb_le in Hc. constructor; [by constructor|].
      assert (Forall (λ z, (createdAt z <= createdAt x)%Z) (y :: r)) as Hle.
      { constructor; [lia|]. eapply Forall_impl; [exact Hy|].
        intros z [?|[? _]]; simpl in *; lia. }
      apply Forall_forall. intros z Hz.
      eapply Forall_forall in Hle as Hzx; [|done].
      assert (key_ltb (id x) (id z) = true) as Hlt.
      { apply elem_of_cons in Hz as [->|Hz]; [done|].
        by eapply Forall_forall in Hxr. }
      unfold listed_before.
      destruct (decide (createdAt z = createdAt x)); [right|left]; [done|lia].
    + apply Z.leb_gt in Hc. constructor; [by apply IH|].
      rewrite sort_insert_Permutation. constructor; [|done].
      left. lia.
Qed.

Lemma Array_sort_before l :
  StronglySorted (λ a b, key_ltb (id a) (id b) = true) l →
  StronglySorted listed_before (Array_sort by_date_descending l).
Proof.
  induction 1 as [|x r Hr IH Hx]; simpl; [constructor|].
  apply sort_insert_before; [|done].
  by rewrite Array_sort_Permutation.
Qed.

Lemma listing_before m :
  (∀ k w, m !! k = Some w → id w = k) →
  StronglySorted listed_before (listing m).
Proof. intros Hkeyed. by apply Array_sort_before, getAll_order_id. Qed.

Lemma listing_Permutation m : listing m ≡ₚ (map_to_list m).*2.
Proof.
  unfold listing. by rewrite Array_sort_Permutation, merge_sort_Permutation.
Qed.

Lemma StronglySorted_lookup {A} (R : relation A) l i j a b :
  StronglySorted R l → l !! i = Some a → l !! j = Some b → i < j → R a b.
Proof.
  intros Hs. revert i j. induction Hs as [|x r Hr IH Hx]; intros i j; [done|].
  destruct i as [|i], j as [|j]; simpl; try lia.
  - intros [= ->] Hb _. eapply Forall_forall in Hx; [done|].
    by eapply list_elem_of_lookup_2.
  - intros Ha Hb Hlt. eapply IH; eauto. lia.
Qed.

Lemma listed_before_asym a b : listed_before a b → ¬ listed_before b a.
Proof.
  intros [?|[? Hab]] [?|[? Hba]]; try lia.
  apply key_ltb_asym in Hab. congruence.
Qed.

(** ** Records inserted and listed *)

Lemma store_ok_later e e' : later e e' → store_ok e → store_ok e'.
Proof. by intros (_ & H & _). Qed.

Lemma faults_later e e' : later e e' → faults e = [] → faults e' = [].
Proof. by intros (_ & _ & H). Qed.

Lemma works_later e e' k w :
  later e e' → works e !! k = Some w → works e' !! k = Some w.
Proof. intros (H & _ & _). apply H. Qed.

(** Inserting records whose [id]s are distinct and free, one after the
    other: every insert resolves, and the collection gains exactly
    them. *)
Lemma insert_all_run ws e :
  faults e = [] → store_ok e → NoDup (id <$> ws) →
  (∀ w, w ∈ ws → works e !! id w = None) →
  ∃ e', insert_all ws e = (Resolved tt, e') ∧
        faults e' = [] ∧ store_ok e' ∧
        map_to_list (works e') ≡ₚ
          ((λ w, (id w, w)) <$> ws) ++ map_to_list (works e).
Proof.
  revert e. induction ws as [|w ws IH]; intros e Hf Hok Hnd Hfree.
  - by exists e.
  - apply NoDup_cons in Hnd as [Hw Hnd]. simpl.
    pose proof (saveWork_run w e Hf Hok) as Hrun.
    rewrite (Hfree w) in Hrun by left. destruct Hrun as [Hres Hworks].
    pose proof (saveWork_advances w e) as Hlater.
    destruct (saveWork w e) as [r e1] eqn:Hsave. simpl in *. subst r.
    destruct (IH e1) as (e' & Hrest & Hf' & Hok' & Hperm).
    + by eapply faults_later.
    + by eapply store_ok_later.
    + done.
    + intros v Hv. rewrite Hworks. rewrite lookup_insert_ne.
      * apply Hfree. by right.
      * intros Heq. apply Hw. rewrite Heq. by apply list_elem_of_fmap_2.
    + exists e'. split; [|split; [done|split; [done|]]].
      * by erewrite bind_resolved.
      * rewrite Hperm, Hworks.
        rewrite map_to_list_insert by (apply Hfree; left).
        by rewrite Permutation_middle.
Qed.



(** C2: whatever the engine holds, a listing that resolves is in
    descending order of [createdAt]: each element's [createdAt] is at
    least that of the next; and after inserting a record of id "1" and
    date 100 and then one of id "2" and date 200 into a fresh store, the
    listing is the second record followed by the first. *)
Theorem listAll_sorted_descending :
  (∀ e l e',
     getAllWorks e = (Resolved l, e') →
     Sorted (λ a b, (createdAt a >= createdAt b)%Z) l) ∧
  (∀ a b,
     id a = "1" → createdAt a = 100%Z → id b = "2" → createdAt b = 200%Z →
     (saveWork a fresh).1 = Resolved tt ∧
     (saveWork b (saveWork a fresh).2).1 = Resolved tt ∧
     (getAllWorks (saveWork b (saveWork a fresh).2).2).1 = Resolved [b; a]).
Proof.
  split.
  - intros e l e' H. apply getAllWorks_listing in H as [-> _].
    apply listing_descending.
  - intros a b Ha Hta Hb Htb.
    destruct (insert_all_run [a; b] fresh) as (e1 & Hins & Hf1 & Hok1 & Hp);
      [done|done| | |].
    { simpl. rewrite Ha, Hb. apply (bool_decide_unpack _). by vm_compute. }
    { done. }
    simpl in Hins. unfold mbind, Async_bind, mret, Async_ret in Hins.
    destruct (saveWork a fresh) as [[[]|?] ea]; [|done]. simpl.
    destruct (saveWork b ea) as [[[]|?] eb]; [|done]. simpl.
    injection Hins as ->.
    split; [done|]. split; [done|].
    rewrite getAllWorks_run by done. f_equal.
    pose proof (listing_descending (works e1)) as Hs.
    pose proof (listing_Permutation (works e1)) as Hl.
    rewrite Hp, (works_absent fresh), map_to_list_empty in Hl by done.
    simpl in Hl.
    apply Permutation_sym, Permutation_length_2_inv in Hl as [Hl|Hl];
      [|done].
    rewrite Hl in Hs. apply Sorted_inv in Hs as [_ Hs].
    apply HdRel_inv in Hs. lia.
Qed.

Lemma listAll_sorted_descending_witness :
  Sorted (λ a b, (createdAt a >= createdAt b)%Z) [beta; alpha] ∧
  (getAllWorks (saveWork beta (saveWork alpha fresh).2).2).1
    = Resolved [beta; alpha].
Proof.
  destruct listAll_sorted_descending as [Hsorted Hscenario]. split.
  - eapply (Hsorted (saveWork beta (saveWork alpha fresh).2).2).
    vm_compute. reflexivity.
  - apply (Hscenario alpha beta); reflexivity.
Defined.

(** ** Duplicate keys *)

Lemma store_ok_keyed e k w : store_ok e → works e !! k = Some w → id w = k.
Proof.
  intros Hok Hw. destruct (databases e !! DB_NAME) as [d|] eqn:Hd.
  - destruct (proj1 (store_ok_spec e) Hok d Hd) as (_ & s & Hs & _ & Hkeyed).
    rewrite (works_lookup _ _ Hd), Hs in Hw. by apply Hkeyed.
  - by rewrite (works_absent _ Hd) in Hw.
Qed.

Lemma store_ok_unique_ids e : store_ok e → unique_ids (works e).
Proof.
  intros Hok k1 k2 w1 w2 H1 H2 Heq.
  apply (store_ok_keyed _ _ _ Hok) in H1, H2. congruence.
Qed.

(** A request [add] that fails writes nothing. *)
Lemma add_rejected store w e err :
  (add store w e).1 = Rejected err →
  databases (add store w e).2 = databases e.
Proof.
  unfold add, next_fault.
  destruct (tx_mode _); [done|].
  destruct (store_data store e) as [[d s]|]; [|done].
  destruct (extract_key _ _) as [k|]; [|done].
  destruct (faults e) as [|[err'|] fs]; simpl; [|done|].
  all: by destruct (records s !! k).
Qed.

(** A [saveWork] that rejects leaves the collection as it was. *)
Lemma saveWork_rejected w e err :
  (saveWork w e).1 = Rejected err → works (saveWork w e).2 = works e.
Proof.
  unfold saveWork, mbind, Async_bind.
  pose proof (initDB_works e) as Hinit.
  destruct (initDB e) as [[db|?] e1]; simpl in Hinit; [|done].
  destruct (transaction_state db [STORE_NAME] readwrite e1) as [Hd2 _].
  destruct (transaction db [STORE_NAME] readwrite e1) as [[tx|?] e2];
    simpl in Hd2; [|intros _; simpl; by rewrite (works_databases _ _ Hd2)].
  destruct (objectStore_state tx STORE_NAME e2) as [Hd3 _].
  destruct (objectStore tx STORE_NAME e2) as [[store|?] e3];
    simpl in Hd3;
    [|intros _; simpl; by rewrite (works_databases _ _ Hd3),
                                  (works_databases _ _ Hd2)].
  intros Hadd. apply add_rejected in Hadd.
  by rewrite (works_databases _ _ Hadd), (works_databases _ _ Hd3),
             (works_databases _ _ Hd2).
Qed.

(** C3: when the collection holds a record under the [id] of [r],
    [saveWork r] rejects, whatever the platform does, and never
    overwrites: the collection is what it was, the stored record
    included; on a platform that works the rejection is the engine's
    duplicate-key error, [ConstraintError], and the listing after the
    failed insert is the listing before it. *)
Theorem duplicate_insert_rejected (e : IDBFactory) (r w0 : WorkItem) :
  store_ok e → works e !! id r = Some w0 →
  (∃ err, (saveWork r e).1 = Rejected err) ∧
  works (saveWork r e).2 = works e ∧
  works (saveWork r e).2 !! id r = Some w0 ∧
  (faults e = [] →
     (saveWork r e).1 = Rejected ConstraintError ∧
     (getAllWorks e).1 = Resolved (listing (works e)) ∧
     (getAllWorks (saveWork r e).2).1 = Resolved (listing (works e))).
Proof.
  intros Hok Hdup.
  assert (∃ err, (saveWork r e).1 = Rejected err) as [err Herr].
  { pose proof (saveWork_advances r e) as Hlater.
    destruct (saveWork r e) as [[[]|err] e'] eqn:Hsave; [|by exists err].
    apply saveWork_stored in Hsave as (k & Hfree & Hw). simpl in Hlater.
    assert (id r = k) as <-.
    { apply (store_ok_keyed e'); [by eapply store_ok_later|].
      by rewrite Hw, lookup_insert_eq. }
    congruence. }
  pose proof (saveWork_rejected _ _ _ Herr) as Hsame.
  split; [by exists err|]. split; [done|]. split; [by rewrite Hsame|].
  intros Hf.
  pose proof (saveWork_run r e Hf Hok) as Hrun. rewrite Hdup in Hrun.
  destruct Hrun as [Hres _]. split; [done|].
  split; [by apply getAllWorks_run|].
  rewrite <- Hsame. apply getAllWorks_run.
  - eapply faults_later; [apply saveWork_advances|done].
  - eapply store_ok_later; [apply saveWork_advances|done].
Qed.

Lemma duplicate_insert_rejected_witness :
  (saveWork gamma (saveWork alpha fresh).2).1 = Rejected ConstraintError ∧
  works (saveWork gamma (saveWork alpha fresh).2).2 !! "1" = Some alpha ∧
  (getAllWorks (saveWork gamma (saveWork alpha fresh).2).2).1
    = (getAllWorks (saveWork alpha fresh).2).1.
Proof.
  destruct (duplicate_insert_rejected (saveWork alpha fresh).2 gamma alpha)
    as (_ & _ & Hkept & Hworking).
  - apply (bool_decide_unpack _). vm_compute. exact I.
  - vm_compute. reflexivity.
  - destruct Hworking as (Hrej & Hbefore & Hafter); [reflexivity|].
    split; [exact Hrej|]. split; [exact Hkept|].
    rewrite Hafter. symmetry. exact Hbefore.
Defined.

(** ** The empty store *)

Lemma listing_empty : listing ∅ = [].
Proof. unfold listing. by rewrite map_to_list_empty. Qed.

(** C4: listing a store that holds no record resolves with the empty
    sequence: on a profile never used, right after [initDB] there, and
    on every engine whose collection is empty and whose platform
    works. *)
Theorem listAll_empty_store :
  (getAllWorks fresh).1 = Resolved [] ∧
  (getAllWorks (initDB fresh).2).1 = Resolved [] ∧
  (∀ e, faults e = [] → store_ok e → works e = ∅ →
        (getAllWorks e).1 = Resolved []).
Proof.
  assert (∀ e, faults e = [] → store_ok e → works e = ∅ →
               (getAllWorks e).1 = Resolved []) as Hgen.
  { intros e Hf Hok Hempty.
    by rewrite getAllWorks_run, Hempty, listing_empty. }
  split; [by apply Hgen|]. split; [|done].
  apply Hgen.
  - eapply faults_later; [apply initDB_advances|done].
  - eapply store_ok_later; [apply initDB_advances|done].
  - by rewrite initDB_works.
Qed.

Lemma listAll_empty_store_witness :
  (getAllWorks (getAllWorks (initDB fresh).2).2).1 = Resolved [].
Proof.
  destruct listAll_empty_store as (_ & _ & Hgen). apply Hgen.
  - reflexivity.
  - apply (bool_decide_unpack _). vm_compute. exact I.
  - vm_compute. reflexivity.
Defined.

(** ** Records are kept *)

(** C8: no operation of the store updates or deletes a record: after any
    sequence of [initDB], [saveWork] and [getAllWorks], on any engine,
    every record that was in the collection is still there under its key,
    field for field; the invariant of the collection is kept, and with it
    no two stored records share an [id]; so it is in every state reached
    from a profile never used. *)
Theorem records_never_updated_or_deleted (os : list Op) (e : IDBFactory) :
  (∀ k w, works e !! k = Some w → works (exec_all os e) !! k = Some w) ∧
  (store_ok e →
     store_ok (exec_all os e) ∧ unique_ids (works (exec_all os e))) ∧
  unique_ids (works (exec_all os fresh)).
Proof.
  split; [|split].
  - intros k w. apply works_later, exec_all_later.
  - intros Hok.
    assert (store_ok (exec_all os e)) as Hok'
      by (eapply store_ok_later; [apply exec_all_later|done]).
    split; [done|by apply store_ok_unique_ids].
  - apply store_ok_unique_ids.
    eapply store_ok_later; [apply exec_all_later|exact I].
Qed.

Lemma records_never_updated_or_deleted_witness :
  works (exec_all [OpInsert gamma; OpListAll; OpInit; OpInsert beta]
                  (saveWork alpha fresh).2) !! "1" = Some alpha ∧
  unique_ids (works (exec_all [OpInsert gamma; OpListAll; OpInit; OpInsert beta]
                              (saveWork alpha fresh).2)).
Proof.
  destruct (records_never_updated_or_deleted
              [OpInsert gamma; OpListAll; OpInit; OpInsert beta]
              (saveWork alpha fresh).2) as (Hkept & Hinv & _).
  split.
  - apply Hkept. vm_compute. reflexivity.
  - apply Hinv. apply (bool_decide_unpack _). vm_compute. exact I.
Defined.

(** ** Ties *)

(** C9: the listing is a function of the stored records alone, and of
    two listed records with the same [createdAt] the one whose [id] is
    the smaller key, in the order of IndexedDB (UTF-16 code unit by code
    unit), comes first. *)
Theorem listAll_tie_order (e : IDBFactory) (l : list WorkItem)
    (e' : IDBFactory) :
  store_ok e → getAllWorks e = (Resolved l, e') →
  l = listing (works e) ∧
  (∀ e2 l2 e2',
     works e2 = works e → getAllWorks e2 = (Resolved l2, e2') → l2 = l) ∧
  (∀ i j a b,
     l !! i = Some a → l !! j = Some b →
     createdAt a = createdAt b → key_ltb (id a) (id b) = true →
     i < j).
Proof.
  intros Hok Hget. apply getAllWorks_listing in Hget as [-> _].
  split; [done|]. split.
  - intros e2 l2 e2' Hsame Hget2.
    apply getAllWorks_listing in Hget2 as [-> _]. by rewrite Hsame.
  - intros i j a b Ha Hb Hdate Hid.
    assert (StronglySorted listed_before (listing (works e))) as Hs.
    { apply listing_before. intros k w. by apply store_ok_keyed. }
    destruct (lt_eq_lt_dec i j) as [[Hlt| ->]|Hgt]; [done| |].
    + rewrite Ha in Hb. injection Hb as <-. by rewrite key_ltb_irrefl in Hid.
    + pose proof (StronglySorted_lookup _ _ _ _ _ _ Hs Hb Ha Hgt) as Hba.
      exfalso. apply (listed_before_asym _ _ Hba). by right.
Qed.

Lemma listAll_tie_order_witness :
  (getAllWorks (saveWork delta (saveWork beta fresh).2).2).1
    = Resolved [delta; beta] ∧ 0 < 1 ∧
  utf16 (id grin) = [55357%N; 56832%N] ∧ utf16 (id tilde) = [65374%N] ∧
  key_ltb (id grin) (id tilde) = true ∧
  String.ltb (id tilde) (id grin) = true ∧
  (getAllWorks (saveWork grin (saveWork tilde fresh).2).2).1
    = Resolved [grin; tilde].
Proof.
  destruct (listAll_tie_order (saveWork delta (saveWork beta fresh).2).2
              [delta; beta]
              (getAllWorks (saveWork delta (saveWork beta fresh).2).2).2)
    as (Hl & _ & Hties).
  - apply (bool_decide_unpack _). vm_compute. exact I.
  - vm_compute. reflexivity.
  - split; [vm_compute; reflexivity|].
    split; [apply (Hties 0 1 delta beta); reflexivity|].
    repeat split; vm_compute; reflexivity.
Defined.

(** ** No validation of fields *)

Lemma not_Category_poster : ¬ is_Category "poster".
Proof. intros [[] H]; discriminate H. Qed.

(** C10: [saveWork] asks nothing of a record but that its [id] is free:
    on a platform that works it resolves for every such record and files
    the record as it is, which the next listing then contains; so it
    does for a record whose title and description are empty and whose
    category is none of the enumeration. *)
Theorem insert_no_field_validation (e : IDBFactory) (w : WorkItem) :
  faults e = [] → store_ok e → works e !! id w = None →
  ((saveWork w e).1 = Resolved tt ∧
   works (saveWork w e).2 = <[id w := w]> (works e) ∧
   ∃ l, (getAllWorks (saveWork w e).2).1 = Resolved l ∧ w ∈ l) ∧
  (title untitled = "" ∧ description untitled = "" ∧
   ¬ is_Category (category untitled) ∧
   (saveWork untitled fresh).1 = Resolved tt ∧
   works (saveWork untitled fresh).2 !! id untitled = Some untitled).
Proof.
  assert (∀ e w, faults e = [] → store_ok e → works e !! id w = None →
     (saveWork w e).1 = Resolved tt ∧
     works (saveWork w e).2 = <[id w := w]> (works e) ∧
     ∃ l, (getAllWorks (saveWork w e).2).1 = Resolved l ∧ w ∈ l) as Hgen.
  { clear. intros e w Hf Hok Hfree.
    pose proof (saveWork_run w e Hf Hok) as Hrun. rewrite Hfree in Hrun.
    destruct Hrun as [Hres Hworks]. split; [done|]. split; [done|].
    eexists. split.
    - apply getAllWorks_run.
      + eapply faults_later; [apply saveWork_advances|done].
      + eapply store_ok_later; [apply saveWork_advances|done].
    - rewrite listing_Permutation, Hworks.
      apply list_elem_of_fmap. exists (id w, w). split; [done|].
      apply elem_of_map_to_list, lookup_insert_eq. }
  intros Hf Hok Hfree. split; [by apply Hgen|].
  split; [done|]. split; [done|]. split; [apply not_Category_poster|].
  destruct (Hgen fresh untitled) as (Hres & Hworks & _); [done..|].
  split; [done|]. rewrite Hworks. apply lookup_insert_eq.
Qed.

Lemma insert_no_field_validation_witness :
  (saveWork untitled (saveWork alpha fresh).2).1 = Resolved tt ∧
  works (saveWork untitled (saveWork alpha fresh).2).2 !! "7" = Some untitled.
Proof.
  destruct (insert_no_field_validation (saveWork alpha fresh).2 untitled)
    as ((Hres & Hworks & _) & _).
  - reflexivity.
  - apply (bool_decide_unpack _). vm_compute. exact I.
  - vm_compute. reflexivity.
  - split; [exact Hres|]. rewrite Hworks. vm_compute. reflexivity.
Defined.

(** ** Initialization, repeated and implied *)

Lemma initDB_times_initialized n e :
  faults e = [] → store_ok e → is_Some (databases e !! DB_NAME) →
  (initDB_times n e).1 = replicate n (Resolved handle) ∧
  databases (initDB_times n e).2 = databases e ∧
  faults (initDB_times n e).2 = [].
Proof.
  revert e. induction n as [|n IH]; intros e Hf Hok Hdb; [done|].
  destruct (initDB_ok e Hf Hok) as (e1 & d & s & Hinit & Hf1 & _ & _ & _ & _
                                    & _ & Hsame).
  specialize (Hsame Hdb). simpl. rewrite Hinit.
  destruct (IH e1) as (Hrs & Hdbs & Hfs).
  - done.
  - by eapply store_ok_databases.
  - by rewrite Hsame.
  - destruct (initDB_times n e1) as [rs e2]. simpl in *.
    by rewrite Hrs, Hdbs, Hsame.
Qed.

(** C5: on a platform that works, calling [initDB] any number of times
    in sequence never rejects; every call resolves with the same handle;
    the calls after the first change nothing in the databases, and on a
    database that is initialized already none of them does; the records
    are untouched, and a transaction on the store can be opened on the
    handle afterwards. *)
Theorem initDB_idempotent (n : nat) (e : IDBFactory) :
  faults e = [] → store_ok e →
  (initDB_times (S n) e).1 = replicate (S n) (Resolved handle) ∧
  databases (initDB_times (S n) e).2 = databases (initDB e).2 ∧
  (is_Some (databases e !! DB_NAME) →
     databases (initDB_times (S n) e).2 = databases e) ∧
  works (initDB_times (S n) e).2 = works e ∧
  (∀ mode,
     (transaction handle [STORE_NAME] mode (initDB_times (S n) e).2).1
       = Resolved {| tx_db := DB_NAME; tx_scope := [STORE_NAME];
                     tx_mode := mode |}).
Proof.
  intros Hf Hok.
  destruct (initDB_ok e Hf Hok) as (e1 & d & s & Hinit & Hf1 & Hd & Hs & _ & _
                                    & _ & Hsame).
  pose proof (initDB_works e) as Hworks.
  pose proof (initDB_store_ok e Hok) as Hok1.
  simpl. rewrite Hinit in *. simpl in *.
  destruct (initDB_times_initialized n e1) as (Hrs & Hdbs & Hfs);
    [done|done|by rewrite Hd|].
  destruct (initDB_times n e1) as [rs e2]. simpl in *.
  split; [by rewrite Hrs|]. split; [done|].
  split; [intros Hdb; by rewrite Hdbs, Hsame|].
  split; [by rewrite (works_databases _ _ Hdbs)|].
  intros mode. erewrite transaction_ok; [done| |by rewrite Hs].
  by rewrite Hdbs.
Qed.

Lemma initDB_idempotent_witness :
  (initDB_times 3 fresh).1 = [Resolved handle; Resolved handle; Resolved handle]
  ∧ databases (initDB_times 3 fresh).2 = databases (initDB fresh).2.
Proof.
  destruct (initDB_idempotent 2 fresh) as (Hall & Hsame & _).
  - reflexivity.
  - exact I.
  - split; [exact Hall|exact Hsame].
Defined.

(** The log of an operation starts with the log of the [initDB] it
    performs. *)
Lemma bind_log_prefix {A B} (m : Async A) (k : A → Async B) e :
  (∀ a e1, log e1 `prefix_of` log (k a e1).2) →
  log (m e).2 `prefix_of` log ((m ≫= k) e).2.
Proof.
  intros Hk. unfold mbind, Async_bind.
  destruct (m e) as [[a|err] e1]; simpl; [apply Hk|done].
Qed.

Lemma bind_rejection {A B} (m : Async A) (k : A → Async B) e err :
  (m e).1 = Rejected err → ((m ≫= k) e).1 = Rejected err.
Proof.
  unfold mbind, Async_bind. destruct (m e) as [[a|?] e1]; simpl; congruence.
Qed.

(** C6: [saveWork] and [getAllWorks] open the database themselves: the
    first call each makes is the [open] of [initDB]; when that
    initialization rejects, the operation rejects with the same error;
    and on a profile whose database was never created, with no call of
    [initDB] before, both resolve and leave the database created. *)
Theorem operations_initialize_themselves (w : WorkItem) (e : IDBFactory) :
  (log (initDB e).2 `prefix_of` log (saveWork w e).2 ∧
   log (initDB e).2 `prefix_of` log (getAllWorks e).2) ∧
  (∀ err, (initDB e).1 = Rejected err →
          (saveWork w e).1 = Rejected err ∧
          (getAllWorks e).1 = Rejected err) ∧
  (faults e = [] → databases e !! DB_NAME = None →
   (saveWork w e).1 = Resolved tt ∧
   (getAllWorks e).1 = Resolved [] ∧
   is_Some (databases (saveWork w e).2 !! DB_NAME) ∧
   is_Some (databases (getAllWorks e).2 !! DB_NAME)).
Proof.
  split; [|split].
  - split.
    + unfold saveWork. apply bind_log_prefix. intros db e1.
      etrans; [|apply bind_log_prefix].
      { rewrite transaction_logs. by apply prefix_app_r. }
      intros tx e2. etrans; [|apply bind_log_prefix].
      { rewrite objectStore_logs. by apply prefix_app_r. }
      intros store e3. rewrite add_logs. by apply prefix_app_r.
    + unfold getAllWorks. apply bind_log_prefix. intros db e1.
      etrans; [|apply bind_log_prefix].
      { rewrite transaction_logs. by apply prefix_app_r. }
      intros tx e2. etrans; [|apply bind_log_prefix].
      { rewrite objectStore_logs. by apply prefix_app_r. }
      intros store e3. etrans; [|apply bind_log_prefix].
      { rewrite getAll_logs. by apply prefix_app_r. }
      done.
  - intros err Hinit. split; by apply bind_rejection.
  - intros Hf Hnone.
    assert (store_ok e) as Hok by (unfold store_ok; by rewrite Hnone).
    pose proof (saveWork_run w e Hf Hok) as Hrun.
    rewrite (works_absent _ Hnone), lookup_empty in Hrun.
    destruct Hrun as [Hres Hworks].
    split; [done|].
    split; [by rewrite getAllWorks_run, (works_absent _ Hnone), listing_empty|].
    split.
    + destruct (databases (saveWork w e).2 !! DB_NAME) eqn:Hd; [done|].
      rewrite (works_absent _ Hd) in Hworks.
      symmetry in Hworks. by apply insert_non_empty in Hworks.
    + destruct (initDB_ok e Hf Hok) as (e1 & d & s & Hinit & Hf1 & Hd & Hs & _).
      unfold getAllWorks. rewrite (bind_resolved _ _ _ _ _ Hinit).
      erewrite bind_resolved; [|by eapply transaction_ok].
      erewrite bind_resolved; [|by apply objectStore_ok].
      unfold mbind, Async_bind.
      destruct (getAll_state
        {| os_transaction :=
             {| tx_db := DB_NAME; tx_scope := [STORE_NAME];
                tx_mode := readonly |};
           os_name := STORE_NAME |}
        (report CallObjectStore
           (Resolved {| os_transaction :=
             {| tx_db := DB_NAME; tx_scope := [STORE_NAME];
                tx_mode := readonly |};
           os_name := STORE_NAME |})
           (report CallTransaction
              (Resolved {| tx_db := DB_NAME; tx_scope := [STORE_NAME];
                tx_mode := readonly |}) e1).2).2) as [Hdbs _].
      destruct (getAll _ _) as [[l|?] e4]; simpl in *; by rewrite Hdbs, Hd.
Qed.

Lemma operations_initialize_themselves_witness :
  (saveWork alpha {| databases := ∅; faults := [Some UnknownError]; log := [] |}).1
    = Rejected UnknownError ∧
  (getAllWorks {| databases := ∅; faults := [Some UnknownError]; log := [] |}).1
    = Rejected UnknownError ∧
  (saveWork alpha fresh).1 = Resolved tt ∧
  (getAllWorks fresh).1 = Resolved [].
Proof.
  destruct (operations_initialize_themselves alpha
              {| databases := ∅; faults := [Some UnknownError]; log := [] |})
    as (_ & Hfail & _).
  destruct (Hfail UnknownError) as [Hsave Hlist]; [reflexivity|].
  destruct (operations_initialize_themselves alpha fresh) as (_ & _ & Hnew).
  destruct Hnew as (Hsave' & Hlist' & _); [reflexivity|reflexivity|].
  repeat split; assumption.
Defined.

(** ** Failures *)

Ltac close_log :=
  eexists; split;
  [repeat match goal with H : log _ = _ |- _ => rewrite H; clear H end;
   rewrite <- ?app_assoc; reflexivity
  |split; [reflexivity|split; [reflexivity|intros []; vm_compute; lia]]].

Lemma initDB_once e :
  ∃ Δ, log (initDB e).2 = log e ++ Δ ∧ once Δ (rejection (initDB e).1).
Proof.
  pose proof (initDB_logs e) as Hlog.
  destruct (initDB e) as [[?|?] ?]; simpl in *; close_log.
Qed.

Lemma saveWork_once w e :
  ∃ Δ, log (saveWork w e).2 = log e ++ Δ ∧ once Δ (rejection (saveWork w e).1).
Proof.
  unfold saveWork, mbind, Async_bind.
  pose proof (initDB_logs e) as H1.
  destruct (initDB e) as [[db|?] e1]; simpl in *; [|close_log].
  pose proof (transaction_logs db [STORE_NAME] readwrite e1) as H2.
  destruct (transaction db _ _ e1) as [[tx|?] e2]; simpl in *; [|close_log].
  pose proof (objectStore_logs tx STORE_NAME e2) as H3.
  destruct (objectStore tx _ e2) as [[store|?] e3]; simpl in *; [|close_log].
  pose proof (add_logs store w e3) as H4.
  destruct (add store w e3) as [[?|?] ?]; simpl in *; close_log.
Qed.

Lemma getAllWorks_once e :
  ∃ Δ, log (getAllWorks e).2 = log e ++ Δ ∧
       once Δ (rejection (getAllWorks e).1).
Proof.
  unfold getAllWorks, mbind, Async_bind.
  pose proof (initDB_logs e) as H1.
  destruct (initDB e) as [[db|?] e1]; simpl in *; [|close_log].
  pose proof (transaction_logs db [STORE_NAME] readonly e1) as H2.
  destruct (transaction db _ _ e1) as [[tx|?] e2]; simpl in *; [|close_log].
  pose proof (objectStore_logs tx STORE_NAME e2) as H3.
  destruct (objectStore tx _ e2) as [[store|?] e3]; simpl in *; [|close_log].
  pose proof (getAll_logs store e3) as H4.
  destruct (getAll store e3) as [[?|?] ?]; simpl in *; close_log.
Qed.

(** A platform fault on the [open]: the operation rejects with it, the
    rest of the schedule is untouched and nothing is written. *)
Lemma open_fault o e err fs :
  faults e = Some err :: fs →
  outcome o e = Some err ∧ faults (exec o e) = fs ∧
  databases (exec o e) = databases e.
Proof.
  intros Hf.
  assert (initDB e = (Rejected err,
            {| databases := databases e; faults := fs;
               log := log e ++ [(CallOpen, Some err)] |})) as Hinit.
  { unfold initDB, indexedDB_open, next_fault. by rewrite Hf. }
  destruct o as [|w|]; simpl.
  - by rewrite Hinit.
  - unfold saveWork. by rewrite (bind_rejected _ _ _ _ _ Hinit).
  - unfold getAllWorks. by rewrite (bind_rejected _ _ _ _ _ Hinit).
Qed.

(** A platform fault on the request that follows a successful [open]:
    [saveWork] and [getAllWorks] reject with it, the rest of the
    schedule is untouched and the records are what they were. *)
Lemma request_fault o e err fs :
  o ≠ OpInit → store_ok e → faults e = None :: Some err :: fs →
  outcome o e = Some err ∧ faults (exec o e) = fs ∧
  works (exec o e) = works e.
Proof.
  intros Ho Hok Hf.
  destruct (initDB_opens e)
    as (e1 & d & s & Hinit & Hf1 & Hd & Hs & Hkp & Hrec & _ & _);
    [unfold next_fault; by rewrite Hf|done|].
  rewrite Hf in Hf1. simpl in Hf1.
  destruct o as [|w|]; [done| |]; simpl.
  - unfold saveWork. rewrite (bind_resolved _ _ _ _ _ Hinit).
    erewrite bind_resolved; [|by eapply transaction_ok].
    erewrite bind_resolved; [|by apply objectStore_ok].
    unfold add, store_data, next_fault. simpl. rewrite Hd. simpl.
    rewrite Hs. simpl. rewrite Hkp, extract_key_id, Hf1. simpl.
    split; [done|]. split; [done|].
    by rewrite (works_lookup _ d), Hs.
  - unfold getAllWorks. rewrite (bind_resolved _ _ _ _ _ Hinit).
    erewrite bind_resolved; [|by eapply transaction_ok].
    erewrite bind_resolved; [|by apply objectStore_ok].
    unfold mbind, Async_bind, getAll, store_data, next_fault. simpl.
    rewrite Hd. simpl. rewrite Hs. simpl. rewrite Hf1. simpl.
    split; [done|]. split; [done|].
    by rewrite (works_lookup _ d), Hs.
Qed.

(** X23: an error the engine reports to a request of [initDB],
    [saveWork] or [getAllWorks] reaches the caller as the rejection of
    the operation, once: on any engine, the operation calls each
    primitive of the engine at most once (so none is tried again),
    [open] exactly once, and the errors the engine reported during the
    operation are exactly the one error the operation rejects with, none
    when it resolves.  A platform fault on the [open], or on the request
    after it, is that rejection, and the operation stops there. *)
Theorem failures_reported_once (o : Op) (e : IDBFactory) :
  (∃ Δ, log (exec o e) = log e ++ Δ ∧ once Δ (outcome o e)) ∧
  (∀ err fs,
     faults e = Some err :: fs →
     outcome o e = Some err ∧ faults (exec o e) = fs ∧
     databases (exec o e) = databases e) ∧
  (∀ err fs,
     o ≠ OpInit → store_ok e → faults e = None :: Some err :: fs →
     outcome o e = Some err ∧ faults (exec o e) = fs ∧
     works (exec o e) = works e).
Proof.
  split; [|split].
  - destruct o as [|w|]; simpl.
    + apply initDB_once.
    + apply saveWork_once.
    + apply getAllWorks_once.
  - intros err fs. apply open_fault.
  - intros err fs. apply request_fault.
Qed.

Lemma failures_reported_once_witness :
  outcome OpInit {| databases := ∅; faults := [Some QuotaExceededError];
                    log := [] |} = Some QuotaExceededError ∧
  outcome OpListAll
    {| databases := databases (saveWork alpha fresh).2;
       faults := [None; Some UnknownError; Some UnknownError];
       log := [] |} = Some UnknownError ∧
  faults (exec OpListAll
    {| databases := databases (saveWork alpha fresh).2;
       faults := [None; Some UnknownError; Some UnknownError];
       log := [] |}) = [Some UnknownError].
Proof.
  destruct (failures_reported_once OpInit
    {| databases := ∅; faults := [Some QuotaExceededError]; log := [] |})
    as (_ & Hopen & _).
  destruct (Hopen QuotaExceededError []) as (Hrej & _); [reflexivity|].
  destruct (failures_reported_once OpListAll
    {| databases := databases (saveWork alpha fresh).2;
       faults := [None; Some UnknownError; Some UnknownError];
       log := [] |}) as (_ & _ & Hrequest).
  destruct (Hrequest UnknownError [Some UnknownError])
    as (Hrej' & Hrest & _).
  - discriminate.
  - apply (bool_decide_unpack _). vm_compute. exact I.
  - reflexivity.
  - repeat split; assumption.
Defined.

(** ** A transaction that aborts *)

Lemma saveWork_ending_abort w err e :
  saveWork_ending w (onabort err) e =
    ((saveWork w e).1,
     {| databases := databases (initDB e).2;
        faults := faults (saveWork w e).2;
        log := log (saveWork w e).2 |}).
Proof. unfold saveWork_ending. by destruct (saveWork w e). Qed.

Lemma listing_absent e w :
  store_ok e → works e !! id w = None → w ∉ listing (works e).
Proof.
  intros Hok Hfree. rewrite listing_Permutation.
  intros Hin. apply list_elem_of_fmap in Hin as ([k v] & -> & Hin).
  apply elem_of_map_to_list in Hin. simpl in Hfree.
  rewrite (store_ok_keyed _ _ _ Hok Hin) in Hfree. congruence.
Qed.

(** C7: not every failure is reported.  When the engine accepts the
    [add] of [saveWork] and then aborts the transaction, with whatever
    error, the promise is resolved already and nothing rejects it:
    [saveWork] resolves as in the run that commits, the collection is
    what it was before, and the next [getAllWorks] resolves without the
    record. *)
Theorem transaction_abort_not_reported (w : WorkItem) (err : DOMException)
    (e : IDBFactory) :
  faults e = [] → store_ok e → works e !! id w = None →
  (saveWork_ending w (onabort err) e).1 = Resolved tt ∧
  (saveWork_ending w (onabort err) e).1 = (saveWork_ending w oncomplete e).1 ∧
  works (saveWork_ending w oncomplete e).2 = <[id w := w]> (works e) ∧
  works (saveWork_ending w (onabort err) e).2 = works e ∧
  (getAllWorks (saveWork_ending w (onabort err) e).2).1
    = Resolved (listing (works e)) ∧
  w ∉ listing (works e).
Proof.
  intros Hf Hok Hfree.
  pose proof (saveWork_run w e Hf Hok) as Hrun. rewrite Hfree in Hrun.
  destruct Hrun as [Hres Hstored].
  destruct (saveWork_advances w e) as (_ & _ & Hfaults).
  rewrite saveWork_ending_abort. simpl.
  set (e' := {| databases := databases (initDB e).2;
                faults := faults (saveWork w e).2;
                log := log (saveWork w e).2 |}).
  assert (works e' = works e) as Hworks.
  { rewrite <- (initDB_works e). by apply works_databases. }
  split; [done|]. split; [|split; [|split; [done|split]]].
  - unfold saveWork_ending. by destruct (saveWork w e).
  - unfold saveWork_ending. by destruct (saveWork w e).
  - rewrite <- Hworks. apply getAllWorks_run; [by apply Hfaults|].
    apply (store_ok_databases (initDB e).2); [done|].
    by apply initDB_store_ok.
  - by apply listing_absent.
Qed.

Lemma transaction_abort_not_reported_witness :
  (saveWork_ending alpha (onabort QuotaExceededError) fresh).1 = Resolved tt ∧
  works (saveWork_ending alpha (onabort QuotaExceededError) fresh).2 = ∅ ∧
  (getAllWorks (saveWork_ending alpha (onabort QuotaExceededError) fresh).2).1
    = Resolved [].
Proof.
  destruct (transaction_abort_not_reported alpha QuotaExceededError fresh)
    as (Hres & _ & _ & Hworks & Hlist & _).
  - reflexivity.
  - exact I.
  - reflexivity.
  - split; [exact Hres|]. split; [exact Hworks|exact Hlist].
Defined.

(** * Further properties of the store *)

(** X1: the order in which records are inserted does not show: two
    runs that insert the same records, with distinct free [id]s, in
    different orders leave the same collection, and the same listing. *)
Theorem insertion_order_irrelevant (ws ws' : list WorkItem) (e : IDBFactory) :
  faults e = [] → store_ok e → NoDup (id <$> ws) →
  (∀ w, w ∈ ws → works e !! id w = None) →
  ws ≡ₚ ws' →
  ∃ e1 e1',
    insert_all ws e = (Resolved tt, e1) ∧
    insert_all ws' e = (Resolved tt, e1') ∧
    works e1 = works e1' ∧
    (getAllWorks e1).1 = Resolved (listing (works e1)) ∧
    (getAllWorks e1').1 = Resolved (listing (works e1)).
Proof.
  intros Hf Hok Hnd Hfree Hperm.
  destruct (insert_all_run ws e Hf Hok Hnd Hfree) as (e1 & H1 & Hf1 & Hok1 & Hp1).
  destruct (insert_all_run ws' e Hf Hok) as (e1' & H1' & Hf1' & Hok1' & Hp1').
  { by rewrite <- Hperm. }
  { intros w Hw. apply Hfree. by rewrite Hperm. }
  assert (works e1 = works e1') as Hsame.
  { apply map_to_list_inj. by rewrite Hp1, Hp1', Hperm. }
  exists e1, e1'. split; [done|]. split; [done|]. split; [done|].
  split; [by apply getAllWorks_run|].
  rewrite Hsame. by apply getAllWorks_run.
Qed.

Lemma insertion_order_irrelevant_witness :
  (getAllWorks (saveWork beta (saveWork alpha fresh).2).2).1
    = (getAllWorks (saveWork alpha (saveWork beta fresh).2).2).1.
Proof.
  destruct (insertion_order_irrelevant [alpha; beta] [beta; alpha] fresh)
    as (e1 & e1' & H1 & H1' & _ & Hl & Hl').
  - reflexivity.
  - exact I.
  - apply (bool_decide_unpack _). vm_compute. exact I.
  - intros w _. reflexivity.
  - apply Permutation_swap.
  - assert ((saveWork beta (saveWork alpha fresh).2).2 = e1) as ->
      by (vm_compute in H1; vm_compute; congruence).
    assert ((saveWork alpha (saveWork beta fresh).2).2 = e1') as ->
      by (vm_compute in H1'; vm_compute; congruence).
    rewrite Hl, Hl'. reflexivity.
Defined.

Lemma listing_keyed_insert (m : gmap string WorkItem) w :
  (∀ k v, m !! k = Some v → id v = k) →
  ∀ k v, <[id w := w]> m !! k = Some v → id v = k.
Proof.
  intros Hkeyed k v. destruct (decide (id w = k)) as [<-|Hne].
  - rewrite lookup_insert_eq. by intros [= <-].
  - rewrite lookup_insert_ne by done. apply Hkeyed.
Qed.

(** A record later than all the stored ones goes to the front of the
    listing, and the rest of the listing is what it was. *)
Lemma listing_insert_newest (m : gmap string WorkItem) w :
  (∀ k v, m !! k = Some v → id v = k) →
  m !! id w = None →
  map_Forall (λ _ v, (createdAt v < createdAt w)%Z) m →
  listing (<[id w := w]> m) = w :: listing m.
Proof.
  intros Hkeyed Hfree Hnew.
  apply (StronglySorted_unique_strong listed_before).
  - intros x1 x2 _ _ H12 H21. by destruct (listed_before_asym _ _ H12).
  - by apply listing_before, listing_keyed_insert.
  - constructor; [by apply listing_before|].
    apply Forall_forall. intros v Hv. left.
    rewrite listing_Permutation in Hv.
    apply list_elem_of_fmap in Hv as ([k v'] & -> & Hv).
    apply elem_of_map_to_list in Hv. by eapply Hnew.
  - rewrite !listing_Permutation, map_to_list_insert by done. done.
Qed.

(** X2: the most recent record comes first: after [saveWork] of a
    record with a free [id] and a [createdAt] above that of every stored
    record, on a platform that works, the listing is that record
    followed by the listing as it was before. *)
Theorem newest_listed_first (e : IDBFactory) (w : WorkItem) :
  faults e = [] → store_ok e → works e !! id w = None →
  map_Forall (λ _ v, (createdAt v < createdAt w)%Z) (works e) →
  (getAllWorks e).1 = Resolved (listing (works e)) ∧
  (getAllWorks (saveWork w e).2).1 = Resolved (w :: listing (works e)).
Proof.
  intros Hf Hok Hfree Hnew. split; [by apply getAllWorks_run|].
  pose proof (saveWork_run w e Hf Hok) as Hrun. rewrite Hfree in Hrun.
  destruct Hrun as [_ Hworks].
  rewrite getAllWorks_run, Hworks.
  - f_equal. apply listing_insert_newest; [|done..].
    intros k v. by apply store_ok_keyed.
  - eapply faults_later; [apply saveWork_advances|done].
  - eapply store_ok_later; [apply saveWork_advances|done].
Qed.

Lemma newest_listed_first_witness :
  (getAllWorks (saveWork beta (saveWork alpha fresh).2).2).1
    = Resolved [beta; alpha].
Proof.
  destruct (newest_listed_first (saveWork alpha fresh).2 beta) as [Hold Hnew].
  - reflexivity.
  - apply (bool_decide_unpack _). vm_compute. exact I.
  - vm_compute. reflexivity.
  - apply (bool_decide_unpack _). vm_compute. exact I.
  - exact Hnew.
Defined.

(** [initDB] on a database the platform lets it reach. *)
Lemma initDB_existing e d :
  databases e !! DB_NAME = Some d → (next_fault e).1 = None →
  initDB e =
    report CallOpen
      (if (VERSION <? version d)%N then Rejected VersionError
       else Resolved handle)
      (if (version d <? VERSION)%N then
         set_database DB_NAME
           (if contains d STORE_NAME
            then {| version := VERSION; objectStores := objectStores d |}
            else {| version := VERSION;
                    objectStores :=
                      <[STORE_NAME := {| keyPath := "id"; records := ∅ |}]>
                        (objectStores d) |})
           (next_fault e).2
       else (next_fault e).2).
Proof.
  intros Hd Hf. unfold initDB, indexedDB_open.
  destruct (next_fault e) as [f e1] eqn:Hnf. simpl in Hf. subst f.
  assert (databases e1 = databases e) as Hdbs.
  { unfold next_fault in Hnf. destruct (faults e); by simplify_eq/=. }
  rewrite Hdbs, Hd. simpl. rewrite onupgradeneeded_inr. simpl.
  destruct (VERSION <? version d)%N eqn:Hgt.
  - assert ((version d <? VERSION)%N = false) as ->; [|done].
    apply N.ltb_lt in Hgt. apply N.ltb_ge. lia.
  - destruct (version d <? VERSION)%N; [|done].
    unfold contains. simpl. by destruct (bool_decide _).
Qed.

Lemma next_fault_databases e : databases (next_fault e).2 = databases e.
Proof. unfold next_fault. by destruct (faults e). Qed.

(** X3: a database of a later version is never opened: when the
    database of the profile is at a version above [VERSION], every
    operation rejects with [VersionError] (where the platform does not
    fail the request first) and the databases are left as they are. *)
Theorem newer_version_rejected (o : Op) (e : IDBFactory) (d : Database) :
  databases e !! DB_NAME = Some d → (VERSION < version d)%N →
  (next_fault e).1 = None →
  outcome o e = Some VersionError ∧ databases (exec o e) = databases e.
Proof.
  intros Hd Hv Hf.
  pose proof (initDB_existing e d Hd Hf) as Hinit.
  apply N.ltb_lt in Hv as Hgt. rewrite Hgt in Hinit.
  assert ((version d <? VERSION)%N = false) as Hlt by (apply N.ltb_ge; lia).
  rewrite Hlt in Hinit. unfold report in Hinit. simpl in Hinit.
  destruct o as [|w|]; simpl.
  - rewrite Hinit. simpl. by rewrite next_fault_databases.
  - unfold saveWork. rewrite (bind_rejected _ _ _ _ _ Hinit). simpl.
    by rewrite next_fault_databases.
  - unfold getAllWorks. rewrite (bind_rejected _ _ _ _ _ Hinit). simpl.
    by rewrite next_fault_databases.
Qed.

Lemma newer_version_rejected_witness :
  outcome (OpInsert alpha)
    {| databases := {[DB_NAME := {| version := 2; objectStores := ∅ |}]};
       faults := []; log := [] |} = Some VersionError.
Proof.
  destruct (newer_version_rejected (OpInsert alpha)
    {| databases := {[DB_NAME := {| version := 2; objectStores := ∅ |}]};
       faults := []; log := [] |}
    {| version := 2; objectStores := ∅ |}) as [Hrej _].
  - reflexivity.
  - reflexivity.
  - reflexivity.
  - exact Hrej.
Defined.

(** X4: the store is created in an upgrade only: on a database that is
    at [VERSION] already and has no store [STORE_NAME], [initDB] resolves
    and creates nothing, and [saveWork] and [getAllWorks] reject with
    [NotFoundError], the databases as they were; so they do on every
    later call. *)
Theorem missing_store_not_created (w : WorkItem) (e : IDBFactory)
    (d : Database) :
  databases e !! DB_NAME = Some d → version d = VERSION →
  objectStores d !! STORE_NAME = None →
  (next_fault e).1 = None →
  ((initDB e).1 = Resolved handle ∧ databases (initDB e).2 = databases e) ∧
  ((saveWork w e).1 = Rejected NotFoundError ∧
   databases (saveWork w e).2 = databases e) ∧
  ((getAllWorks e).1 = Rejected NotFoundError ∧
   databases (getAllWorks e).2 = databases e).
Proof.
  intros Hd Hv Hs Hf.
  pose proof (initDB_existing e d Hd Hf) as Hinit.
  rewrite Hv in Hinit. simpl in Hinit. unfold report in Hinit. simpl in Hinit.
  assert (∀ mode,
    transaction handle [STORE_NAME] mode
      {| databases := databases (next_fault e).2;
         faults := faults (next_fault e).2;
         log := log (next_fault e).2 ++ [(CallOpen, None)] |}
    = (Rejected NotFoundError,
       {| databases := databases (next_fault e).2;
          faults := faults (next_fault e).2;
          log := (log (next_fault e).2 ++ [(CallOpen, None)])
                   ++ [(CallTransaction, Some NotFoundError)] |})) as Htx.
  { intros mode. unfold transaction. simpl.
    rewrite next_fault_databases, Hd.
    apply contains_None in Hs. by rewrite Hs. }
  split; [|split].
  - rewrite Hinit. simpl. by rewrite next_fault_databases.
  - unfold saveWork. rewrite (bind_resolved _ _ _ _ _ Hinit).
    rewrite (bind_rejected _ _ _ _ _ (Htx readwrite)). simpl.
    by rewrite next_fault_databases.
  - unfold getAllWorks. rewrite (bind_resolved _ _ _ _ _ Hinit).
    rewrite (bind_rejected _ _ _ _ _ (Htx readonly)). simpl.
    by rewrite next_fault_databases.
Qed.

Lemma missing_store_not_created_witness :
  (getAllWorks
    {| databases := {[DB_NAME := {| version := 1; objectStores := ∅ |}]};
       faults := []; log := [] |}).1 = Rejected NotFoundError.
Proof.
  destruct (missing_store_not_created alpha
    {| databases := {[DB_NAME := {| version := 1; objectStores := ∅ |}]};
       faults := []; log := [] |}
    {| version := 1; objectStores := ∅ |}) as (_ & _ & Hlist & _).
  - reflexivity.
  - reflexivity.
  - reflexivity.
  - reflexivity.
  - exact Hlist.
Defined.

(** * The page: App.tsx *)

(** ** loadData *)

Lemma loadData_resolved p data e :
  getAllWorks (indexedDB p) = (Resolved data, e) →
  loadData p =
    (tt, {| state :=
              {| App.works := data; App.filter := App.filter (state p);
                 App.isUploadModalOpen := App.isUploadModalOpen (state p);
                 App.isMenuOpen := App.isMenuOpen (state p);
                 App.activeWork := App.activeWork (state p);
                 App.toasts := App.toasts (state p) |};
            form := form p; indexedDB := e; clock := clock p;
            reads := reads p; console := console p |}).
Proof.
  intros H. unfold loadData, mbind, UI_bind, await. by rewrite H.
Qed.

Lemma loadData_rejected p err e :
  getAllWorks (indexedDB p) = (Rejected err, e) →
  loadData p =
    (tt, {| state := state p; form := form p; indexedDB := e;
            clock := clock p; reads := reads p;
            console := console p ++ [("Failed to load works", err)] |}).
Proof.
  intros H. unfold loadData, mbind, UI_bind, await. by rewrite H.
Qed.

(** [getAllWorks] writes no record, however it settles. *)
Lemma getAllWorks_works e : works (getAllWorks e).2 = works e.
Proof.
  unfold getAllWorks, mbind, Async_bind.
  pose proof (initDB_works e) as Hw1.
  destruct (initDB e) as [[db|?] e1]; simpl in Hw1; [|done].
  destruct (transaction_state db [STORE_NAME] readonly e1) as [Hd2 _].
  destruct (transaction db [STORE_NAME] readonly e1) as [[tx|?] e2];
    simpl in Hd2; [|simpl; by rewrite (works_databases _ _ Hd2)].
  destruct (objectStore_state tx STORE_NAME e2) as [Hd3 _].
  destruct (objectStore tx STORE_NAME e2) as [[store|?] e3]; simpl in Hd3;
    [|simpl; by rewrite (works_databases _ _ Hd3), (works_databases _ _ Hd2)].
  destruct (getAll_state store e3) as [Hd4 _].
  destruct (getAll store e3) as [[l|?] e4]; simpl in *.
  all: by rewrite (works_databases _ _ Hd4), (works_databases _ _ Hd3),
                  (works_databases _ _ Hd2).
Qed.

Lemma listing_elem_of (m : gmap string WorkItem) w :
  w ∈ listing m ↔ ∃ k, m !! k = Some w.
Proof.
  rewrite listing_Permutation, list_elem_of_fmap. split.
  - intros ([k v] & -> & Hin). exists k. by apply elem_of_map_to_list.
  - intros [k Hk]. exists (k, w). split; [done|].
    by apply elem_of_map_to_list.
Qed.

Lemma listing_length (m : gmap string WorkItem) : length (listing m) = size m.
Proof.
  by rewrite listing_Permutation, length_fmap, length_map_to_list.
Qed.

(** X5: [loadData] on a platform that works sets the gallery to the
    stored records, each once, the latest first, and touches nothing
    else: not the records, not the toasts, the filter or the modal, not
    the console. *)
Theorem loadData_shows_collection (p : Page) :
  faults (indexedDB p) = [] → store_ok (indexedDB p) →
  App.works (state (loadData p).2) = listing (works (indexedDB p)) ∧
  (∀ w, w ∈ App.works (state (loadData p).2) ↔
        ∃ k, works (indexedDB p) !! k = Some w) ∧
  length (App.works (state (loadData p).2)) = size (works (indexedDB p)) ∧
  Sorted (λ a b, (createdAt a >= createdAt b)%Z)
         (App.works (state (loadData p).2)) ∧
  works (indexedDB (loadData p).2) = works (indexedDB p) ∧
  App.toasts (state (loadData p).2) = App.toasts (state p) ∧
  App.filter (state (loadData p).2) = App.filter (state p) ∧
  App.isUploadModalOpen (state (loadData p).2)
    = App.isUploadModalOpen (state p) ∧
  console (loadData p).2 = console p.
Proof.
  intros Hf Hok.
  pose proof (getAllWorks_run _ Hf Hok) as Hrun.
  destruct (getAllWorks (indexedDB p)) as [r e] eqn:Hget. simpl in Hrun.
  subst r. rewrite (loadData_resolved _ _ _ Hget). simpl.
  apply getAllWorks_listing in Hget as [_ Hsame].
  split; [done|]. split; [apply listing_elem_of|].
  split; [apply listing_length|]. split; [apply listing_descending|].
  done.
Qed.

Lemma loadData_shows_collection_witness :
  App.works (state (loadData
    {| state := state (blank ticking); form := form (blank ticking);
       indexedDB := (saveWork beta (saveWork alpha fresh).2).2;
       clock := ticking; reads := 0; console := [] |}).2) = [beta; alpha].
Proof.
  destruct (loadData_shows_collection
    {| state := state (blank ticking); form := form (blank ticking);
       indexedDB := (saveWork beta (saveWork alpha fresh).2).2;
       clock := ticking; reads := 0; console := [] |}) as [Hshown _].
  - reflexivity.
  - apply (bool_decide_unpack _). vm_compute. exact I.
  - exact Hshown.
Defined.

(** X6: [loadData] never fails: when the listing rejects, it logs the
    error to the console and leaves the component state, so the gallery
    already shown, the form and the stored records as they were. *)
Theorem loadData_failure_keeps_gallery (p : Page) (err : DOMException) :
  (getAllWorks (indexedDB p)).1 = Rejected err →
  state (loadData p).2 = state p ∧
  form (loadData p).2 = form p ∧
  console (loadData p).2 = console p ++ [("Failed to load works", err)] ∧
  works (indexedDB (loadData p).2) = works (indexedDB p).
Proof.
  intros Hrej.
  destruct (getAllWorks (indexedDB p)) as [r e] eqn:Hget. simpl in *.
  subst r. rewrite (loadData_rejected _ _ _ Hget). simpl.
  split; [done|]. split; [done|]. split; [done|].
  pose proof (getAllWorks_works (indexedDB p)) as Hw. by rewrite Hget in Hw.
Qed.

Lemma loadData_failure_keeps_gallery_witness :
  App.works (state (loadData
    {| state :=
         {| App.works := [alpha]; App.filter := "all";
            App.isUploadModalOpen := false; App.isMenuOpen := false;
            App.activeWork := None; App.toasts := [] |};
       form := form (blank ticking);
       indexedDB := {| databases := databases (saveWork alpha fresh).2;
                       faults := [None; Some UnknownError]; log := [] |};
       clock := ticking; reads := 0; console := [] |}).2) = [alpha].
Proof.
  destruct (loadData_failure_keeps_gallery
    {| state :=
         {| App.works := [alpha]; App.filter := "all";
            App.isUploadModalOpen := false; App.isMenuOpen := false;
            App.activeWork := None; App.toasts := [] |};
       form := form (blank ticking);
       indexedDB := {| databases := databases (saveWork alpha fresh).2;
                       faults := [None; Some UnknownError]; log := [] |};
       clock := ticking; reads := 0; console := [] |} UnknownError)
    as [Hstate _].
  - reflexivity.
  - rewrite Hstate. reflexivity.
Defined.

(** ** handleUpload *)

(** The toast [addToast] appends at a reading of the clock. *)
Lemma addToast_run text type p :
  addToast text type p =
    (tt, {| state :=
              {| App.works := App.works (state p);
                 App.filter := App.filter (state p);
                 App.isUploadModalOpen := App.isUploadModalOpen (state p);
                 App.isMenuOpen := App.isMenuOpen (state p);
                 App.activeWork := App.activeWork (state p);
                 App.toasts :=
                   App.toasts (state p) ++
                     [{| Toast.id := clock p (reads p); Toast.type := type;
                         Toast.text := text |}] |};
            form := form p; indexedDB := indexedDB p; clock := clock p;
            reads := S (reads p); console := console p |}).
Proof. done. Qed.

(** The submit of a complete form, by the settlement of [saveWork]. *)
Lemma handleUpload_saved p coverFile cs contentFile fs e1 :
  Form.cover (form p) = coverFile :: cs →
  Form.file (form p) = contentFile :: fs →
  saveWork (newWork (form p) coverFile contentFile
                    (clock p (reads p)) (clock p (S (reads p))))
           (indexedDB p) = (Resolved tt, e1) →
  handleUpload p =
    (form_reset ∘ snd ∘ addToast "作品发布成功！" Toast.success
       ∘ snd ∘ setIsUploadModalOpen false ∘ snd ∘ loadData)
      {| state := state p; form := form p; indexedDB := e1;
         clock := clock p; reads := S (S (reads p)); console := console p |}.
Proof.
  intros Hc Hf Hsave. unfold handleUpload. rewrite Hc, Hf. simpl.
  unfold mbind at 1 2 3, UI_bind, Date_now, await. simpl. rewrite Hsave.
  unfold mbind, UI_bind. simpl.
  destruct (loadData _) as [[] p1]. simpl.
  by destruct (setIsUploadModalOpen false p1) as [[] p2].
Qed.

Lemma handleUpload_failed p coverFile cs contentFile fs err e1 :
  Form.cover (form p) = coverFile :: cs →
  Form.file (form p) = contentFile :: fs →
  saveWork (newWork (form p) coverFile contentFile
                    (clock p (reads p)) (clock p (S (reads p))))
           (indexedDB p) = (Rejected err, e1) →
  handleUpload p =
    addToast "保存失败，可能是文件过大" Toast.error
      {| state := state p; form := form p; indexedDB := e1;
         clock := clock p; reads := S (S (reads p)); console := console p |}.
Proof.
  intros Hc Hf Hsave. unfold handleUpload. rewrite Hc, Hf. simpl.
  unfold mbind at 1 2 3, UI_bind, Date_now, await. simpl. by rewrite Hsave.
Qed.

Lemma published_complete f t1 t2 w :
  published f t1 t2 = Some w →
  ∃ coverFile cs contentFile fs,
    Form.cover f = coverFile :: cs ∧ Form.file f = contentFile :: fs ∧
    w = newWork f coverFile contentFile t1 t2.
Proof.
  unfold published. destruct (Form.cover f) as [|c cs]; [done|].
  destruct (Form.file f) as [|cf fs]; [done|]. simpl. intros [= <-].
  by exists c, cs, cf, fs.
Qed.

(** X7: a form with no cover or no content file is not saved: the
    handler makes no call to the engine, leaves the form, the gallery
    and the modal as they are, and only appends one error toast, whose
    id is the reading of the clock. *)
Theorem handleUpload_incomplete (p : Page) :
  ¬ complete (form p) →
  indexedDB (handleUpload p).2 = indexedDB p ∧
  form (handleUpload p).2 = form p ∧
  App.works (state (handleUpload p).2) = App.works (state p) ∧
  App.isUploadModalOpen (state (handleUpload p).2)
    = App.isUploadModalOpen (state p) ∧
  App.toasts (state (handleUpload p).2) =
    App.toasts (state p) ++
      [{| Toast.id := clock p (reads p); Toast.type := Toast.error;
          Toast.text := "请上传完整的封面和内容文件" |}] ∧
  reads (handleUpload p).2 = S (reads p).
Proof.
  intros Hinc. unfold handleUpload, complete in *.
  destruct (Form.cover (form p)) as [|c cs]; simpl; [done|].
  destruct (Form.file (form p)) as [|cf fs]; simpl; [done|].
  by destruct Hinc.
Qed.

Lemma handleUpload_incomplete_witness :
  log (indexedDB (handleUpload (blank ticking)).2) = [] ∧
  length (App.toasts (state (handleUpload (blank ticking)).2)) = 1.
Proof.
  destruct (handleUpload_incomplete (blank ticking))
    as (Hidb & _ & _ & _ & Htoasts & _).
  - intros H. exact H.
  - rewrite Hidb, Htoasts. split; reflexivity.
Defined.

(** The submit of a complete form with a free [id], on a platform that
    works. *)
Lemma handleUpload_success (p : Page) (w : WorkItem) :
  faults (indexedDB p) = [] → store_ok (indexedDB p) →
  published (form p) (clock p (reads p)) (clock p (S (reads p))) = Some w →
  works (indexedDB p) !! id w = None →
  works (indexedDB (handleUpload p).2) = <[id w := w]> (works (indexedDB p)) ∧
  App.works (state (handleUpload p).2)
    = listing (<[id w := w]> (works (indexedDB p))) ∧
  w ∈ App.works (state (handleUpload p).2) ∧
  App.isUploadModalOpen (state (handleUpload p).2) = false ∧
  App.toasts (state (handleUpload p).2) =
    App.toasts (state p) ++
      [{| Toast.id := clock p (S (S (reads p))); Toast.type := Toast.success;
          Toast.text := "作品发布成功！" |}] ∧
  form (handleUpload p).2 = form (form_reset p).2 ∧
  faults (indexedDB (handleUpload p).2) = [] ∧
  store_ok (indexedDB (handleUpload p).2) ∧
  reads (handleUpload p).2 = S (S (S (reads p))) ∧
  clock (handleUpload p).2 = clock p.
Proof.
  intros Hf Hok Hpub Hfree.
  apply published_complete in Hpub as (c & cs & cf & fs & Hc & Hcf & ->).
  pose proof (saveWork_run
    (newWork (form p) c cf (clock p (reads p)) (clock p (S (reads p))))
    _ Hf Hok) as Hrun.
  pose proof (saveWork_advances
    (newWork (form p) c cf (clock p (reads p)) (clock p (S (reads p))))
    (indexedDB p)) as Hlater.
  rewrite Hfree in Hrun. destruct Hrun as [Hres Hworks].
  destruct (saveWork _ (indexedDB p)) as [r e1] eqn:Hsave.
  simpl in Hres, Hworks, Hlater. subst r.
  assert (faults e1 = []) as Hf1 by by eapply faults_later.
  assert (store_ok e1) as Hok1 by by eapply store_ok_later.
  rewrite (handleUpload_saved _ _ _ _ _ _ Hc Hcf Hsave). simpl.
  pose proof (getAllWorks_run _ Hf1 Hok1) as Hlist.
  pose proof (getAllWorks_advances e1) as Hlater2.
  pose proof (getAllWorks_works e1) as Hsame.
  destruct (getAllWorks e1) as [r e2] eqn:Hget. simpl in *. subst r.
  erewrite loadData_resolved by done. simpl.
  rewrite Hsame, Hworks.
  split; [done|]. split; [done|].
  split; [apply listing_elem_of; eexists; apply lookup_insert_eq|].
  split; [done|]. split; [done|]. split; [done|].
  split; [by eapply faults_later|]. split; [by eapply store_ok_later|done].
Qed.

(** X8: a complete form whose [id], the decimal reading of the clock,
    is free is published, on a platform that works: the record made of
    the form is stored under that [id]; the gallery is reloaded and is
    the listing of the records, the new one among them; the modal is
    closed, the form reset, and a success toast appended. *)
Theorem handleUpload_publishes (p : Page) (w : WorkItem) :
  faults (indexedDB p) = [] → store_ok (indexedDB p) →
  published (form p) (clock p (reads p)) (clock p (S (reads p))) = Some w →
  works (indexedDB p) !! id w = None →
  works (indexedDB (handleUpload p).2) = <[id w := w]> (works (indexedDB p)) ∧
  App.works (state (handleUpload p).2)
    = listing (<[id w := w]> (works (indexedDB p))) ∧
  w ∈ App.works (state (handleUpload p).2) ∧
  App.isUploadModalOpen (state (handleUpload p).2) = false ∧
  App.toasts (state (handleUpload p).2) =
    App.toasts (state p) ++
      [{| Toast.id := clock p (S (S (reads p))); Toast.type := Toast.success;
          Toast.text := "作品发布成功！" |}] ∧
  form (handleUpload p).2 = form (form_reset p).2 ∧
  faults (indexedDB (handleUpload p).2) = [] ∧
  store_ok (indexedDB (handleUpload p).2) ∧
  reads (handleUpload p).2 = S (S (S (reads p))).
Proof.
  intros Hf Hok Hpub Hfree.
  destruct (handleUpload_success p w Hf Hok Hpub Hfree)
    as (Hworks & Hgallery & Hin & Hmodal & Htoasts & Hform & Hf' & Hok'
        & Hreads & _).
  rewrite Hworks, Hgallery, Hmodal, Htoasts, Hform, Hf', Hreads.
  repeat split; try done.
  apply listing_elem_of. exists (id w). apply lookup_insert_eq.
Qed.

Lemma handleUpload_publishes_witness :
  App.works (state (handleUpload (fill (entry "Alpha" "brand")
                                       (blank ticking))).2)
    = [newWork (entry "Alpha" "brand") cover_png deck
               1700000000000 1700000000001] ∧
  App.isUploadModalOpen
    (state (handleUpload (fill (entry "Alpha" "brand") (blank ticking))).2)
    = false.
Proof.
  destruct (handleUpload_publishes
    (fill (entry "Alpha" "brand") (blank ticking))
    (newWork (entry "Alpha" "brand") cover_png deck
             1700000000000 1700000000001))
    as (_ & Hgallery & _ & Hmodal & _).
  - reflexivity.
  - exact I.
  - reflexivity.
  - reflexivity.
  - split; [|exact Hmodal]. rewrite Hgallery. vm_compute. reflexivity.
Defined.

(** The submit of a complete form when [saveWork] rejects. *)
Lemma handleUpload_failure (p : Page) (w : WorkItem)
    (err : DOMException) :
  published (form p) (clock p (reads p)) (clock p (S (reads p))) = Some w →
  (saveWork w (indexedDB p)).1 = Rejected err →
  works (indexedDB (handleUpload p).2) = works (indexedDB p) ∧
  App.works (state (handleUpload p).2) = App.works (state p) ∧
  App.isUploadModalOpen (state (handleUpload p).2)
    = App.isUploadModalOpen (state p) ∧
  form (handleUpload p).2 = form p ∧
  App.toasts (state (handleUpload p).2) =
    App.toasts (state p) ++
      [{| Toast.id := clock p (S (S (reads p))); Toast.type := Toast.error;
          Toast.text := "保存失败，可能是文件过大" |}] ∧
  console (handleUpload p).2 = console p ∧
  reads (handleUpload p).2 = S (S (S (reads p))).
Proof.
  intros Hpub Hrej.
  apply published_complete in Hpub as (c & cs & cf & fs & Hc & Hcf & ->).
  pose proof (saveWork_rejected _ _ _ Hrej) as Hsame.
  destruct (saveWork _ (indexedDB p)) as [r e1] eqn:Hsave.
  simpl in Hrej, Hsame. subst r.
  rewrite (handleUpload_failed _ _ _ _ _ _ _ Hc Hcf Hsave), addToast_run.
  done.
Qed.

(** X9: when [saveWork] rejects, for whatever reason, the upload
    changes nothing but the toasts: the records, the gallery and the
    modal are as they were, the form keeps what was entered, and one
    error toast is appended. *)
Theorem handleUpload_save_rejected (p : Page) (w : WorkItem)
    (err : DOMException) :
  published (form p) (clock p (reads p)) (clock p (S (reads p))) = Some w →
  (saveWork w (indexedDB p)).1 = Rejected err →
  works (indexedDB (handleUpload p).2) = works (indexedDB p) ∧
  App.works (state (handleUpload p).2) = App.works (state p) ∧
  App.isUploadModalOpen (state (handleUpload p).2)
    = App.isUploadModalOpen (state p) ∧
  form (handleUpload p).2 = form p ∧
  App.toasts (state (handleUpload p).2) =
    App.toasts (state p) ++
      [{| Toast.id := clock p (S (S (reads p))); Toast.type := Toast.error;
          Toast.text := "保存失败，可能是文件过大" |}] ∧
  console (handleUpload p).2 = console p.
Proof.
  intros Hpub Hrej.
  destruct (handleUpload_failure p w err Hpub Hrej)
    as (Hworks & Hgallery & Hmodal & Hform & Htoasts & Hconsole & _).
  rewrite Hworks, Hgallery, Hmodal, Hform, Htoasts, Hconsole.
  repeat split; done.
Qed.

Lemma handleUpload_save_rejected_witness :
  length (App.works (state (handleUpload
    {| state := state (blank ticking); form := entry "Alpha" "brand";
       indexedDB := {| databases := ∅; faults := [Some QuotaExceededError];
                       log := [] |};
       clock := ticking; reads := 0; console := [] |}).2)) = 0 ∧
  form (handleUpload
    {| state := state (blank ticking); form := entry "Alpha" "brand";
       indexedDB := {| databases := ∅; faults := [Some QuotaExceededError];
                       log := [] |};
       clock := ticking; reads := 0; console := [] |}).2
    = entry "Alpha" "brand".
Proof.
  destruct (handleUpload_save_rejected
    {| state := state (blank ticking); form := entry "Alpha" "brand";
       indexedDB := {| databases := ∅; faults := [Some QuotaExceededError];
                       log := [] |};
       clock := ticking; reads := 0; console := [] |}
    (newWork (entry "Alpha" "brand") cover_png deck
             1700000000000 1700000000001) QuotaExceededError)
    as (_ & Hgallery & _ & Hform & _).
  - reflexivity.
  - reflexivity.
  - rewrite Hgallery, Hform. split; reflexivity.
Defined.

(** ** What every handler keeps *)

Lemma handleUpload_cases p :
  (¬ complete (form p) ∧
   handleUpload p = addToast "请上传完整的封面和内容文件" Toast.error p) ∨
  (∃ w e1,
     published (form p) (clock p (reads p)) (clock p (S (reads p))) = Some w ∧
     saveWork w (indexedDB p) = (Resolved tt, e1) ∧
     handleUpload p =
       (form_reset ∘ snd ∘ addToast "作品发布成功！" Toast.success
          ∘ snd ∘ setIsUploadModalOpen false ∘ snd ∘ loadData)
         {| state := state p; form := form p; indexedDB := e1;
            clock := clock p; reads := S (S (reads p));
            console := console p |}) ∨
  (∃ w err e1,
     published (form p) (clock p (reads p)) (clock p (S (reads p))) = Some w ∧
     saveWork w (indexedDB p) = (Rejected err, e1) ∧
     handleUpload p =
       addToast "保存失败，可能是文件过大" Toast.error
         {| state := state p; form := form p; indexedDB := e1;
            clock := clock p; reads := S (S (reads p));
            console := console p |}).
Proof.
  destruct (Form.cover (form p)) as [|c cs] eqn:Hc.
  { left. unfold complete, handleUpload. rewrite Hc. simpl. auto. }
  destruct (Form.file (form p)) as [|cf fs] eqn:Hcf.
  { left. unfold complete, handleUpload. rewrite Hc, Hcf. simpl. auto. }
  right.
  destruct (saveWork (newWork (form p) c cf (clock p (reads p))
                              (clock p (S (reads p)))) (indexedDB p))
    as [[[]|err] e1] eqn:Hsave.
  - left. eexists _, e1. split; [|split; [exact Hsave|]].
    + unfold published. by rewrite Hc, Hcf.
    + by eapply handleUpload_saved.
  - right. eexists _, err, e1. split; [|split; [exact Hsave|]].
    + unfold published. by rewrite Hc, Hcf.
    + by eapply handleUpload_failed.
Qed.

Lemma loadData_page p :
  clock (loadData p).2 = clock p ∧ reads (loadData p).2 = reads p ∧
  form (loadData p).2 = form p ∧
  indexedDB (loadData p).2 = (getAllWorks (indexedDB p)).2.
Proof.
  destruct (getAllWorks (indexedDB p)) as [[data|err] e] eqn:Hget.
  - by rewrite (loadData_resolved _ _ _ Hget).
  - by rewrite (loadData_rejected _ _ _ Hget).
Qed.

Lemma handleUpload_clock p : clock (handleUpload p).2 = clock p.
Proof.
  destruct (handleUpload_cases p)
    as [[_ ->]|[(w & e1 & _ & _ & ->)|(w & err & e1 & _ & _ & ->)]];
    try done.
  simpl.
  by destruct (loadData_page
    {| state := state p; form := form p; indexedDB := e1; clock := clock p;
       reads := S (S (reads p)); console := console p |}) as [-> _].
Qed.

Lemma loadData_later p : later (indexedDB p) (indexedDB (loadData p).2).
Proof.
  destruct (loadData_page p) as (_ & _ & _ & ->). apply getAllWorks_advances.
Qed.

Lemma handleUpload_later p :
  later (indexedDB p) (indexedDB (handleUpload p).2).
Proof.
  destruct (handleUpload_cases p)
    as [[_ ->]|[(w & e1 & _ & Hsave & ->)|(w & err & e1 & _ & Hsave & ->)]].
  - apply later_refl.
  - pose proof (saveWork_advances w (indexedDB p)) as Hl.
    rewrite Hsave in Hl. simpl in *.
    eapply later_trans; [exact Hl|].
    apply (loadData_later
             {| state := state p; form := form p; indexedDB := e1;
                clock := clock p; reads := S (S (reads p));
                console := console p |}).
  - pose proof (saveWork_advances w (indexedDB p)) as Hl.
    by rewrite Hsave in Hl.
Qed.

(** X10: no handler of the page deletes or changes a stored record:
    after [handleUpload], whatever the form, the clock and the platform,
    and after [loadData], every record that was stored is stored still,
    unchanged, and the invariant of the collection is kept. *)
Theorem handlers_keep_records (p : Page) :
  later (indexedDB p) (indexedDB (handleUpload p).2) ∧
  later (indexedDB p) (indexedDB (loadData p).2) ∧
  (∀ k w, works (indexedDB p) !! k = Some w →
     works (indexedDB (handleUpload p).2) !! k = Some w ∧
     works (indexedDB (loadData p).2) !! k = Some w).
Proof.
  pose proof (handleUpload_later p) as Hup.
  pose proof (loadData_later p) as Hload.
  split; [done|]. split; [done|].
  intros k w Hk. split; eapply works_later; eauto.
Qed.

Lemma handlers_keep_records_witness :
  works (indexedDB (handleUpload
    {| state := state (blank frozen); form := entry "Beta" "video";
       indexedDB := (saveWork alpha fresh).2;
       clock := frozen; reads := 0; console := [] |}).2) !! "1" = Some alpha.
Proof.
  destruct (handlers_keep_records
    {| state := state (blank frozen); form := entry "Beta" "video";
       indexedDB := (saveWork alpha fresh).2;
       clock := frozen; reads := 0; console := [] |}) as (_ & _ & Hkept).
  destruct (Hkept "1" alpha) as [Hup _].
  - vm_compute. reflexivity.
  - exact Hup.
Defined.



Lemma submit_all_cons f fs p :
  submit_all (f :: fs) p = submit_all fs (submit f p).2.
Proof.
  simpl. unfold mbind, UI_bind. by destruct (submit f p) as [[] p1].
Qed.

Lemma submit_all_later fs p :
  later (indexedDB p) (indexedDB (submit_all fs p).2).
Proof.
  revert p. induction fs as [|f fs IH]; intros p.
  - apply later_refl.
  - rewrite submit_all_cons. eapply later_trans; [|apply IH].
    apply (handleUpload_later (fill f p)).
Qed.

(** X12: uploads a millisecond or more apart never collide: when the
    clock advances between one submit and the next and no stored [id] is
    a reading to come, submitting complete forms one after the other on
    a platform that works publishes every one of them: the collection
    grows by the number of forms, each form's record is stored under the
    decimal reading of its submit, and the gallery is the listing of the
    collection. *)
Theorem uploads_at_distinct_times (fs : list Form.Elements) (p : Page) :
  faults (indexedDB p) = [] → store_ok (indexedDB p) →
  Forall complete fs →
  (∀ i j, (reads p ≤ i)%nat → (i + 3 ≤ j)%nat → (clock p i < clock p j)%Z) →
  (∀ n, (reads p ≤ n)%nat →
        works (indexedDB p) !! toString (clock p n) = None) →
  size (works (indexedDB (submit_all fs p).2))
    = size (works (indexedDB p)) + length fs ∧
  (fs ≠ [] →
   App.works (state (submit_all fs p).2)
     = listing (works (indexedDB (submit_all fs p).2))) ∧
  (∀ i f, fs !! i = Some f →
     ∃ w, published f (clock p (reads p + 3 * i))
                      (clock p (S (reads p + 3 * i))) = Some w ∧
          works (indexedDB (submit_all fs p).2) !! id w = Some w) ∧
  faults (indexedDB (submit_all fs p).2) = [] ∧
  store_ok (indexedDB (submit_all fs p).2) ∧
  reads (submit_all fs p).2 = reads p + 3 * length fs ∧
  clock (submit_all fs p).2 = clock p.
Proof.
  revert p. induction fs as [|f fs IH]; intros p Hf Hok Hall Htime Hfree.
  { simpl. repeat split; try done; lia. }
  apply Forall_cons in Hall as [Hc Hall].
  assert (∃ w, published f (clock p (reads p)) (clock p (S (reads p)))
               = Some w) as [w Hpub].
  { unfold published, complete in *.
    destruct (Form.cover f); [done|]. destruct (Form.file f); [done|].
    simpl. eauto. }
  assert (id w = toString (clock p (reads p))) as Hid.
  { by apply published_complete in Hpub as (? & ? & ? & ? & _ & _ & ->). }
  assert (works (indexedDB p) !! id w = None) as Hfree0
    by (rewrite Hid; by apply Hfree).
  destruct (handleUpload_success (fill f p) w Hf Hok Hpub Hfree0)
    as (Hworks & Hgallery & _ & _ & _ & _ & Hf1 & Hok1 & Hreads & _).
  pose proof (handleUpload_clock (fill f p)) as Hclock.
  simpl in Hworks, Hgallery, Hreads, Hclock.
  rewrite submit_all_cons. unfold submit at 1 2 3 4 5 6 7 8.
  set (p1 := (handleUpload (fill f p)).2) in *.
  destruct (IH p1) as (Hsize & Hshown & Hrecs & Hf' & Hok' & Hreads' & Hclock').
  - done.
  - done.
  - done.
  - intros i j Hi Hj. rewrite Hclock. apply Htime; lia.
  - intros n Hn. rewrite Hclock, Hworks, lookup_insert_ne.
    + apply Hfree. lia.
    + rewrite Hid. intros Heq. apply (inj _) in Heq.
      assert (clock p (reads p) < clock p n)%Z by (apply Htime; lia). lia.
  - split; [|split; [|split; [|split; [done|split; [done|split]]]]].
    + rewrite Hsize, Hworks, map_size_insert_None by done. simpl. lia.
    + intros _. destruct fs as [|f' fs']; [|by apply Hshown].
      simpl. by rewrite Hgallery, Hworks.
    + intros [|i] f0 Hf0; simpl in Hf0.
      * injection Hf0 as <-. exists w. rewrite Nat.mul_0_r, Nat.add_0_r.
        split; [done|].
        eapply works_later; [apply submit_all_later|].
        by rewrite Hworks, lookup_insert_eq.
      * destruct (Hrecs i f0 Hf0) as (w' & Hpub' & Hstored).
        exists w'. rewrite Hclock, Hreads in Hpub'.
        replace (reads p + 3 * S i) with (S (S (S (reads p))) + 3 * i) by lia.
        done.
    + rewrite Hreads', Hreads. simpl. lia.
    + by rewrite Hclock'.
Qed.

Lemma uploads_at_distinct_times_witness :
  length (App.works (state (submit_all
    [entry "Alpha" "brand"; entry "Beta" "video"; entry "Gamma" "exhibition"]
    (blank ticking)).2)) = 3.
Proof.
  destruct (uploads_at_distinct_times
    [entry "Alpha" "brand"; entry "Beta" "video"; entry "Gamma" "exhibition"]
    (blank ticking)) as (Hsize & Hshown & _).
  - reflexivity.
  - exact I.
  - repeat constructor.
  - intros i j _ Hij. unfold blank, ticking. simpl. lia.
  - intros n _. reflexivity.
  - rewrite Hshown by discriminate.
    rewrite listing_length, Hsize. reflexivity.
Defined.

(** X13: the work just uploaded leads the gallery: when its
    [createdAt], the second reading of the clock, is above that of every
    stored record, the gallery after the upload is the new record
    followed by the listing of the records stored before. *)
Theorem upload_leads_gallery (p : Page) (w : WorkItem) :
  faults (indexedDB p) = [] → store_ok (indexedDB p) →
  published (form p) (clock p (reads p)) (clock p (S (reads p))) = Some w →
  works (indexedDB p) !! id w = None →
  map_Forall (λ _ v, (createdAt v < clock p (S (reads p)))%Z)
             (works (indexedDB p)) →
  App.works (state (handleUpload p).2) = w :: listing (works (indexedDB p)).
Proof.
  intros Hf Hok Hpub Hfree Hnew.
  destruct (handleUpload_success p w Hf Hok Hpub Hfree) as (_ & -> & _).
  apply listing_insert_newest; [|done|].
  - intros k v. by apply store_ok_keyed.
  - by apply published_complete in Hpub as (? & ? & ? & ? & _ & _ & ->).
Qed.

Lemma upload_leads_gallery_witness :
  head (App.works (state (handleUpload
    {| state := state (blank ticking); form := entry "Gamma" "exhibition";
       indexedDB := (saveWork beta (saveWork alpha fresh).2).2;
       clock := ticking; reads := 0; console := [] |}).2))
  = Some (newWork (entry "Gamma" "exhibition") cover_png deck
                  1700000000000 1700000000001).
Proof.
  rewrite (upload_leads_gallery
    {| state := state (blank ticking); form := entry "Gamma" "exhibition";
       indexedDB := (saveWork beta (saveWork alpha fresh).2).2;
       clock := ticking; reads := 0; console := [] |}
    (newWork (entry "Gamma" "exhibition") cover_png deck
             1700000000000 1700000000001)).
  - reflexivity.
  - reflexivity.
  - apply (bool_decide_unpack _). vm_compute. exact I.
  - reflexivity.
  - vm_compute. reflexivity.
  - apply (bool_decide_unpack _). vm_compute. exact I.
Defined.

(** [saveWork] when the platform lets its two requests through. *)
Lemma saveWork_quiet w e fs :
  store_ok e → faults e = None :: None :: fs → works e !! id w = None →
  (saveWork w e).1 = Resolved tt ∧
  works (saveWork w e).2 = <[id w := w]> (works e) ∧
  faults (saveWork w e).2 = fs.
Proof.
  intros Hok Hf Hfree.
  destruct (initDB_opens e)
    as (e1 & d & s & Hinit & Hf1 & Hd & Hs & Hkp & Hrec & _ & _);
    [unfold next_fault; by rewrite Hf|done|].
  rewrite Hf in Hf1. simpl in Hf1.
  unfold saveWork. rewrite (bind_resolved _ _ _ _ _ Hinit).
  erewrite bind_resolved; [|by eapply transaction_ok].
  erewrite bind_resolved; [|by apply objectStore_ok].
  unfold add, store_data, next_fault. simpl. rewrite Hd. simpl.
  rewrite Hs. simpl. rewrite Hkp, extract_key_id, Hf1, Hrec, Hfree. simpl.
  split; [done|]. split; [|done].
  unfold works. simpl. rewrite lookup_insert_eq. simpl.
  by rewrite lookup_insert_eq.
Qed.

(** X14: the success toast does not wait for the reload: when the
    record is saved but the listing that follows fails, the error is
    only logged to the console; the modal is closed, the form reset and
    the success toast shown, the record is stored, and the gallery is
    the one shown before, without the new record. *)
Theorem upload_without_reload (p : Page) (w : WorkItem)
    (err : DOMException) (fs : list (option DOMException)) :
  store_ok (indexedDB p) →
  faults (indexedDB p) = None :: None :: Some err :: fs →
  published (form p) (clock p (reads p)) (clock p (S (reads p))) = Some w →
  works (indexedDB p) !! id w = None →
  works (indexedDB (handleUpload p).2) !! id w = Some w ∧
  App.works (state (handleUpload p).2) = App.works (state p) ∧
  App.isUploadModalOpen (state (handleUpload p).2) = false ∧
  App.toasts (state (handleUpload p).2) =
    App.toasts (state p) ++
      [{| Toast.id := clock p (S (S (reads p))); Toast.type := Toast.success;
          Toast.text := "作品发布成功！" |}] ∧
  form (handleUpload p).2 = form (form_reset p).2 ∧
  console (handleUpload p).2 = console p ++ [("Failed to load works", err)].
Proof.
  intros Hok Hf Hpub Hfree.
  apply published_complete in Hpub as (c & cs & cf & fs' & Hc & Hcf & ->).
  destruct (saveWork_quiet _ _ _ Hok Hf Hfree) as (Hres & Hworks & Hf1).
  destruct (saveWork _ (indexedDB p)) as [r e1] eqn:Hsave.
  simpl in Hres, Hworks, Hf1. subst r.
  rewrite (handleUpload_saved _ _ _ _ _ _ Hc Hcf Hsave). simpl.
  destruct (open_fault OpListAll e1 err fs Hf1) as (Hrej & _ & _).
  simpl in Hrej.
  pose proof (getAllWorks_works e1) as Hsame.
  destruct (getAllWorks e1) as [[l|err'] e2] eqn:Hget; simpl in *; [done|].
  injection Hrej as ->.
  erewrite loadData_rejected by done. simpl.
  rewrite Hsame, Hworks, lookup_insert_eq. done.
Qed.

Lemma upload_without_reload_witness :
  App.works (state (handleUpload
    {| state := state (blank ticking); form := entry "Alpha" "brand";
       indexedDB := {| databases := ∅;
                       faults := [None; None; Some UnknownError];
                       log := [] |};
       clock := ticking; reads := 0; console := [] |}).2) = [] ∧
  length (App.toasts (state (handleUpload
    {| state := state (blank ticking); form := entry "Alpha" "brand";
       indexedDB := {| databases := ∅;
                       faults := [None; None; Some UnknownError];
                       log := [] |};
       clock := ticking; reads := 0; console := [] |}).2)) = 1.
Proof.
  destruct (upload_without_reload
    {| state := state (blank ticking); form := entry "Alpha" "brand";
       indexedDB := {| databases := ∅;
                       faults := [None; None; Some UnknownError];
                       log := [] |};
       clock := ticking; reads := 0; console := [] |}
    (newWork (entry "Alpha" "brand") cover_png deck
             1700000000000 1700000000001) UnknownError [])
    as (_ & Hgallery & _ & Htoasts & _).
  - exact I.
  - reflexivity.
  - reflexivity.
  - reflexivity.
  - rewrite Hgallery, Htoasts. split; reflexivity.
Defined.

(** ** The tabs of the gallery *)

Lemma filter_StronglySorted {A} (R : relation A) (P : A → Prop)
    `{∀ x, Decision (P x)} l :
  StronglySorted R l → StronglySorted R (filter P l).
Proof.
  induction 1 as [|x l Hl IH Hx]; [constructor|].
  rewrite filter_cons. destruct (decide (P x)); [|done].
  constructor; [done|].
  apply Forall_forall. intros y Hy. apply list_elem_of_filter in Hy as [_ Hy].
  by eapply Forall_forall in Hx.
Qed.

Lemma createdAt_ge_trans :
  Transitive (λ a b : WorkItem, (createdAt a >= createdAt b)%Z).
Proof. intros a b c. lia. Qed.

(** X15: what a tab shows: under ['all'] the whole gallery; under a
    category exactly the works of the gallery with that category, in
    the order of the gallery, so latest first when the gallery is. *)
Theorem filteredWorks_tab (s : App.State) :
  (App.filter s = "all" → filteredWorks s = App.works s) ∧
  (App.filter s ≠ "all" →
     ∀ w, w ∈ filteredWorks s ↔
          w ∈ App.works s ∧ category w = App.filter s) ∧
  filteredWorks s `sublist_of` App.works s ∧
  (Sorted (λ a b, (createdAt a >= createdAt b)%Z) (App.works s) →
   Sorted (λ a b, (createdAt a >= createdAt b)%Z) (filteredWorks s)).
Proof.
  unfold filteredWorks. destruct (decide (App.filter s = "all")) as [Hall|Hne].
  - rewrite bool_decide_eq_true_2 by done. repeat split; done.
  - rewrite bool_decide_eq_false_2 by done. split; [done|]. split; [|split].
    + intros _ w. rewrite list_elem_of_filter. tauto.
    + apply sublist_filter.
    + intros Hs. apply StronglySorted_Sorted, filter_StronglySorted.
      by apply (Sorted_StronglySorted _ (Transitive0 := createdAt_ge_trans)).
Qed.

Lemma filteredWorks_tab_witness :
  tab "video" [delta; beta; alpha] = [delta; beta] ∧
  Sorted (λ a b, (createdAt a >= createdAt b)%Z)
         (tab "video" [delta; beta; alpha]).
Proof.
  destruct (filteredWorks_tab
    {| App.works := [delta; beta; alpha]; App.filter := "video";
       App.isUploadModalOpen := false; App.isMenuOpen := false;
       App.activeWork := None; App.toasts := [] |}) as (_ & _ & _ & Hs).
  split; [reflexivity|]. apply Hs.
  repeat constructor; vm_compute; discriminate.
Defined.

(** X16: the three category tabs split the works whose category is in
    the enumeration: a work is under the tab of its category and under
    no other, so the tabs add up to the gallery when every category is
    valid; a work with any other category shows under no category tab,
    only under ['all']. *)
Theorem tabs_partition (ws : list WorkItem) :
  tab "all" ws = ws ∧
  (∀ w c, w ∈ tab (Category_value c) ws ↔
          w ∈ ws ∧ category w = Category_value c) ∧
  (∀ w, ¬ is_Category (category w) →
        ∀ c, w ∉ tab (Category_value c) ws) ∧
  (Forall (λ w, is_Category (category w)) ws →
   length (tab (Category_value BRAND) ws) +
   length (tab (Category_value VIDEO) ws) +
   length (tab (Category_value EXHIBITION) ws) = length ws).
Proof.
  assert (∀ c, tab (Category_value c) ws
               = filter (λ w, category w = Category_value c) ws) as Htab.
  { intros c. unfold tab, filteredWorks. simpl.
    rewrite bool_decide_eq_false_2; [done|]. by destruct c. }
  split; [done|]. split; [|split].
  - intros w c. rewrite Htab, list_elem_of_filter. tauto.
  - intros w Hw c. rewrite Htab, list_elem_of_filter. intros [Hc _].
    apply Hw. by exists c.
  - rewrite !Htab. clear Htab. simpl.
    induction 1 as [|w r [c Hc] Hr IH]; [done|].
    rewrite !filter_cons, Hc.
    destruct c; simpl; repeat case_decide; try discriminate; try done;
      simpl; lia.
Qed.

Lemma tabs_partition_witness :
  length (tab "brand" [delta; beta; alpha]) +
  length (tab "video" [delta; beta; alpha]) +
  length (tab "exhibition" [delta; beta; alpha]) = 3 ∧
  untitled ∉ tab "video" [untitled; beta].
Proof.
  destruct (tabs_partition [delta; beta; alpha]) as (_ & _ & _ & Hsum).
  destruct (tabs_partition [untitled; beta]) as (_ & _ & Hforeign & _).
  split.
  - apply Hsum. repeat constructor; [exists VIDEO|exists VIDEO|exists BRAND];
      reflexivity.
  - apply (Hforeign untitled not_Category_poster VIDEO).
Defined.

(** ** Toasts *)

Lemma removeToast_run i p :
  App.toasts (state (removeToast i p).2)
    = filter (λ t, Toast.id t ≠ i) (App.toasts (state p)).
Proof. done. Qed.

(** X17: [removeToast] removes the toasts with the given id, all of
    them, and nothing else: the others stay, in their order; it changes
    nothing when no toast has the id, and nothing else of the page. *)
Theorem removeToast_removes (i : Z) (p : Page) :
  (∀ t, t ∈ App.toasts (state (removeToast i p).2) ↔
        t ∈ App.toasts (state p) ∧ Toast.id t ≠ i) ∧
  App.toasts (state (removeToast i p).2) `sublist_of` App.toasts (state p) ∧
  (Forall (λ t, Toast.id t ≠ i) (App.toasts (state p)) →
   App.toasts (state (removeToast i p).2) = App.toasts (state p)) ∧
  App.toasts (state (removeToast i (removeToast i p).2).2)
    = App.toasts (state (removeToast i p).2) ∧
  App.works (state (removeToast i p).2) = App.works (state p) ∧
  indexedDB (removeToast i p).2 = indexedDB p ∧
  form (removeToast i p).2 = form p.
Proof.
  rewrite !removeToast_run. split; [|split; [|split; [|split]]].
  - intros t. rewrite list_elem_of_filter. tauto.
  - apply sublist_filter.
  - induction 1 as [|t ts Ht Hts IH]; [done|].
    rewrite filter_cons. destruct (decide _); [|done]. by rewrite IH.
  - rewrite list_filter_filter. apply list_filter_iff. tauto.
  - done.
Qed.

Lemma removeToast_removes_witness :
  App.toasts (state (removeToast 7 (addToast "saved" Toast.success
                                      (blank ticking)).2).2)
  = App.toasts (state (addToast "saved" Toast.success (blank ticking)).2).
Proof.
  destruct (removeToast_removes 7
              (addToast "saved" Toast.success (blank ticking)).2)
    as (_ & _ & Hnone & _).
  apply Hnone. repeat constructor. vm_compute. discriminate.
Defined.

(** X18: a toast leaves as it came, unless another shares its
    millisecond: removing the id of a toast just added gives back the
    toasts there were before, when none of them has that id; and two
    toasts added at the same reading of the clock have the same id, so
    removing it (the timer of the first) removes both. *)
Theorem toast_expires (p : Page) (text1 text2 : string)
    (type1 type2 : Toast.Kind) :
  App.toasts (state (removeToast (clock p (reads p))
                                 (addToast text1 type1 p).2).2)
    = filter (λ t, Toast.id t ≠ clock p (reads p)) (App.toasts (state p)) ∧
  (Forall (λ t, Toast.id t ≠ clock p (reads p)) (App.toasts (state p)) →
   App.toasts (state (removeToast (clock p (reads p))
                                  (addToast text1 type1 p).2).2)
     = App.toasts (state p)) ∧
  (clock p (S (reads p)) = clock p (reads p) →
   App.toasts (state (removeToast (clock p (reads p))
     (addToast text2 type2 (addToast text1 type1 p).2).2).2)
     = filter (λ t, Toast.id t ≠ clock p (reads p)) (App.toasts (state p))) ∧
  (clock p (S (reads p)) ≠ clock p (reads p) →
   App.toasts (state (removeToast (clock p (reads p))
     (addToast text2 type2 (addToast text1 type1 p).2).2).2)
     = filter (λ t, Toast.id t ≠ clock p (reads p)) (App.toasts (state p))
       ++ [{| Toast.id := clock p (S (reads p)); Toast.type := type2;
              Toast.text := text2 |}]).
Proof.
  assert (App.toasts (state (removeToast (clock p (reads p))
                                 (addToast text1 type1 p).2).2)
    = filter (λ t, Toast.id t ≠ clock p (reads p)) (App.toasts (state p)))
    as Hone.
  { rewrite removeToast_run, addToast_run. simpl.
    rewrite filter_app, filter_cons. simpl.
    destruct (decide _); [done|]. by rewrite filter_nil, app_nil_r. }
  split; [done|]. split; [|split].
  - intros Hfresh. rewrite Hone. clear Hone.
    induction Hfresh as [|t ts Ht Hts IH]; [done|].
    rewrite filter_cons. destruct (decide _); [|done]. by rewrite IH.
  - intros Hsame. rewrite removeToast_run, !addToast_run. simpl.
    rewrite !filter_app, !filter_cons, !filter_nil. simpl. rewrite Hsame.
    destruct (decide _); [done|]. by rewrite !app_nil_r.
  - intros Hne. rewrite removeToast_run, !addToast_run. simpl.
    rewrite !filter_app, !filter_cons, !filter_nil. simpl.
    destruct (decide (clock p (reads p) ≠ clock p (reads p))); [done|].
    destruct (decide (clock p (S (reads p)) ≠ clock p (reads p))); [|done].
    by rewrite app_nil_r.
Qed.

Lemma toast_expires_witness :
  App.toasts (state (removeToast 1700000000000
    (addToast "b" Toast.error
       (addToast "a" Toast.success (blank frozen)).2).2).2) = [] ∧
  length (App.toasts (state (removeToast 1700000000000
    (addToast "b" Toast.error
       (addToast "a" Toast.success (blank ticking)).2).2).2)) = 1.
Proof.
  destruct (toast_expires (blank frozen) "a" "b" Toast.success Toast.error)
    as (_ & _ & Hsame & _).
  destruct (toast_expires (blank ticking) "a" "b" Toast.success Toast.error)
    as (_ & _ & _ & Hdiff).
  split.
  - exact (Hsame eq_refl).
  - refine (f_equal length (Hdiff _)). vm_compute. discriminate.
Defined.

(** ** The viewer *)

Lemma String_split_nonempty sep s : String_split sep s ≠ [].
Proof.
  destruct s as [|c r]; simpl; [done|].
  destruct (bool_decide (c = sep)); [done|].
  by destruct (String_split sep r).
Qed.

(** Joining the pieces of a split with the separator gives the string
    back. *)
Lemma String_split_concat sep s :
  String.concat (String sep "") (String_split sep s) = s.
Proof.
  induction s as [|c r IH]; [done|].
  pose proof (String_split_nonempty sep r) as Hne.
  cbn [String_split].
  destruct (String_split sep r) as [|h t] eqn:Hr; [done|].
  destruct (bool_decide (c = sep)) eqn:Hc.
  - apply bool_decide_eq_true in Hc as ->.
    change (String.concat (String sep "") ("" :: h :: t))
      with (String sep (String.concat (String sep "") (h :: t))).
    by rewrite IH.
  - rewrite <- IH. by destruct t.
Qed.

Lemma String_split_pieces sep s :
  Forall (λ piece, sep ∉ chars piece) (String_split sep s).
Proof.
  induction s as [|c r IH]; simpl.
  - repeat constructor. simpl. apply not_elem_of_nil.
  - destruct (bool_decide (c = sep)) eqn:Hc.
    + constructor; [|done]. simpl. apply not_elem_of_nil.
    + apply bool_decide_eq_false in Hc.
      destruct (String_split sep r) as [|h t]; simpl.
      * repeat constructor. simpl. rewrite elem_of_cons.
        intros [?|H]; [done|]. by apply not_elem_of_nil in H.
      * apply Forall_cons in IH as [Hh Ht]. constructor; [|done].
        simpl. rewrite elem_of_cons. intros [?|?]; [done|]. by apply Hh.
Qed.

Lemma String_split_length sep s :
  length (String_split sep s) = S (length (filter (λ c, c = sep) (chars s))).
Proof.
  induction s as [|c r IH]; simpl; [done|].
  rewrite filter_cons.
  destruct (decide (c = sep)) as [->|Hne].
  - rewrite bool_decide_eq_true_2 by done. simpl. by rewrite IH.
  - rewrite bool_decide_eq_false_2 by done.
    pose proof (String_split_nonempty sep r) as Hnil.
    destruct (String_split sep r) as [|h t]; [done|]. simpl in *. done.
Qed.

Lemma String_split_pop sep s : is_Some (pop (String_split sep s)).
Proof.
  unfold pop. pose proof (String_split_nonempty sep s) as Hne.
  destruct (String_split sep s) as [|h t] using rev_ind; [done|].
  rewrite last_snoc. eauto.
Qed.

(** X19: [split] loses nothing: joining the pieces with the separator
    gives the string back; no piece contains the separator; there is
    one piece more than there are separators in the string, so always
    one at least. *)
Theorem String_split_round_trip (sep : Ascii.ascii) (s : string) :
  String.concat (String sep "") (String_split sep s) = s ∧
  Forall (λ piece, sep ∉ chars piece) (String_split sep s) ∧
  length (String_split sep s)
    = S (length (filter (λ c, c = sep) (chars s))) ∧
  is_Some (pop (String_split sep s)).
Proof.
  split; [apply String_split_concat|]. split; [apply String_split_pieces|].
  split; [apply String_split_length|apply String_split_pop].
Qed.

(** The last piece of a split ends the string, right after the last
    separator if there is one. *)
Lemma String_split_last sep s ext :
  pop (String_split sep s) = Some ext →
  (sep ∉ chars ext) ∧
  (((sep ∉ chars s) ∧ s = ext) ∨
   ∃ base, s = (base ++ String sep ext)%string).
Proof.
  unfold pop. revert ext. induction s as [|c r IH]; intros ext; simpl.
  - intros [= <-]. split; [apply not_elem_of_nil|]. left.
    split; [apply not_elem_of_nil|done].
  - pose proof (String_split_nonempty sep r) as Hne.
    destruct (bool_decide (c = sep)) eqn:Hc.
    + apply bool_decide_eq_true in Hc as ->.
      destruct (String_split sep r) as [|h t] eqn:Hr; [done|].
      change (last ("" :: h :: t)) with (last (h :: t)). intros Hlast.
      destruct (IH ext Hlast) as [Hext [[Hno ->]|[base ->]]].
      * split; [done|]. right. by exists "".
      * split; [done|]. right. by exists (String sep base).
    + apply bool_decide_eq_false in Hc.
      destruct (String_split sep r) as [|h t] eqn:Hr; [done|].
      destruct t as [|h' t'].
      * simpl. intros [= <-]. simpl in IH.
        destruct (IH h eq_refl) as [Hext [[Hno ->]|[base ->]]].
        -- split.
           ++ simpl. rewrite elem_of_cons. intros [?|?]; [done|]. by apply Hno.
           ++ left. split; [|done]. simpl. rewrite elem_of_cons.
              intros [?|?]; [done|]. by apply Hno.
        -- exfalso.
           pose proof (String_split_length sep (base ++ String sep h)) as Hl.
           rewrite Hr in Hl. simpl in Hl.
           assert (chars (base ++ String sep h)
                   = chars base ++ sep :: chars h) as Hch.
           { clear. induction base; simpl; [done|]. by f_equal. }
           rewrite Hch, filter_app, filter_cons, decide_True in Hl by done.
           rewrite length_app in Hl. simpl in Hl. lia.
      * change (last (String c h :: h' :: t')) with (last (h' :: t')).
        change (last (h :: h' :: t')) with (last (h' :: t')) in IH.
        intros Hlast.
        destruct (IH ext Hlast) as [Hext [[Hno ->]|[base ->]]].
        -- exfalso.
           pose proof (String_split_length sep ext) as Hl.
           rewrite Hr in Hl. simpl in Hl.
           assert (filter (λ c, c = sep) (chars ext) = []) as Hnil.
           { clear -Hno. induction (chars ext) as [|a l IHl]; [done|].
             rewrite filter_cons. rewrite not_elem_of_cons in Hno.
             destruct Hno as [Ha Hl]. rewrite decide_False by done.
             by apply IHl. }
           rewrite Hnil in Hl. simpl in Hl. lia.
        -- split; [done|]. right. by exists (String c base).
Qed.

(** X20: what the viewer shows for a work: the image for a type that
    begins with [image/], the PDF frame for [application/pdf], the
    download card otherwise; the format the card names is always there,
    contains no dot, and is the end of the file name: what follows its
    last dot, or the whole name when it has none. *)
Theorem renderContent_format (w : WorkItem) :
  (renderContent w = ImageView ↔ String.prefix "image/" (fileType w) = true) ∧
  (renderContent w = PdfFrame ↔ fileType w = "application/pdf") ∧
  (∀ format,
     renderContent w = DownloadCard format →
     ∃ ext, format = Some ext ∧
            ("."%char ∉ chars ext) ∧
            ((("."%char ∉ chars (fileName w)) ∧ fileName w = ext) ∨
             ∃ base, fileName w = (base ++ String "." ext)%string)).
Proof.
  unfold renderContent. split; [|split].
  - destruct (String.prefix "image/" (fileType w)); [done|].
    by destruct (bool_decide _).
  - destruct (String.prefix "image/" (fileType w)) eqn:Hp.
    + split; [done|]. intros Heq. rewrite Heq in Hp. discriminate Hp.
    + destruct (bool_decide _) eqn:Hpdf.
      * by apply bool_decide_eq_true in Hpdf.
      * apply bool_decide_eq_false in Hpdf. done.
  - intros format.
    destruct (String.prefix "image/" (fileType w)); [done|].
    destruct (bool_decide _); [done|]. intros [= <-].
    destruct (String_split_pop "." (fileName w)) as [ext Hext].
    exists ext. split; [done|]. by apply String_split_last.
Qed.

Lemma renderContent_format_witness :
  renderContent
    (newWork (entry "Alpha" "brand") cover_png deck 1700000000000 1700000000001)
    = DownloadCard (Some "ppt").
Proof.
  destruct (renderContent_format
    (newWork (entry "Alpha" "brand") cover_png deck
             1700000000000 1700000000001)) as (_ & _ & Hcard).
  destruct (Hcard (Some "ppt")) as (ext & Hext & _); [reflexivity|].
  reflexivity.
Defined.

(** ** Object URLs *)

Lemma urls_ok_fresh_url d : urls_ok d → object_urls d !! issued d = None.
Proof.
  intros Hok. destruct (object_urls d !! issued d) eqn:Hl; [|done].
  apply Hok in Hl. simpl in Hl. lia.
Qed.

(** X21: the viewer gives back what it takes: its effect makes one
    object URL, for the content of the work, and hides the scroll bar
    of the body; its cleanup revokes that URL and no other, whatever
    was made since, so a cleanup right after the effect leaves the live
    URLs as they were; and it sets the overflow of the body to [auto],
    whatever it was before the viewer opened. *)
Theorem WorkViewer_effect_balanced (work : WorkItem) (d : Document) :
  urls_ok d →
  object_urls (WorkViewer_effect work d).2
    !! (WorkViewer_effect work d).1.1 = Some (fileBlob work) ∧
  body_overflow (WorkViewer_effect work d).2 = "hidden" ∧
  (∀ d', object_urls ((WorkViewer_effect work d).1.2 d')
           = delete (WorkViewer_effect work d).1.1 (object_urls d') ∧
         body_overflow ((WorkViewer_effect work d).1.2 d') = "auto") ∧
  object_urls ((WorkViewer_effect work d).1.2 (WorkViewer_effect work d).2)
    = object_urls d ∧
  urls_ok ((WorkViewer_effect work d).1.2 (WorkViewer_effect work d).2).
Proof.
  intros Hok. pose proof (urls_ok_fresh_url d Hok) as Hfresh.
  unfold WorkViewer_effect. simpl.
  split; [apply lookup_insert_eq|]. split; [done|]. split; [done|].
  assert (delete (issued d) (<[issued d := fileBlob work]> (object_urls d))
          = object_urls d) as Hback
    by (by rewrite delete_insert_eq, delete_id).
  split; [done|].
  unfold urls_ok. simpl. rewrite Hback.
  intros url b Hl. apply Hok in Hl. simpl in *. lia.
Qed.

Lemma WorkViewer_effect_balanced_witness :
  object_urls ((WorkViewer_effect alpha
     {| object_urls := ∅; issued := 0; body_overflow := "scroll" |}).1.2
    (WorkViewer_effect alpha
       {| object_urls := ∅; issued := 0; body_overflow := "scroll" |}).2)
  = ∅.
Proof.
  destruct (WorkViewer_effect_balanced alpha
    {| object_urls := ∅; issued := 0; body_overflow := "scroll" |})
    as (_ & _ & _ & Hback & _).
  - apply (bool_decide_unpack _). vm_compute. exact I.
  - exact Hback.
Defined.

Lemma cover_urls_grow ws d :
  urls_ok d →
  urls_ok (cover_urls ws d).2 ∧
  size (object_urls (cover_urls ws d).2)
    = size (object_urls d) + length ws ∧
  object_urls d ⊆ object_urls (cover_urls ws d).2 ∧
  (cover_urls ws d).1 = seq (issued d) (length ws) ∧
  (∀ i w, ws !! i = Some w →
          object_urls (cover_urls ws d).2 !! (issued d + i)
            = Some (coverBlob w)).
Proof.
  revert d. induction ws as [|w ws IH]; intros d Hok; simpl.
  { repeat split; try done; lia. }
  pose proof (urls_ok_fresh_url d Hok) as Hfresh.
  destruct (IH {| object_urls := <[issued d := coverBlob w]> (object_urls d);
                  issued := S (issued d);
                  body_overflow := body_overflow d |})
    as (Hok' & Hsize & Hsub & Hurls & Hlive).
  { unfold urls_ok. simpl. apply map_Forall_insert_2; [lia|].
    intros url b Hl. apply Hok in Hl. simpl in *. lia. }
  destruct (cover_urls ws _) as [urls d2]. simpl in *.
  split; [done|].
  split; [rewrite Hsize, map_size_insert_None by done; lia|].
  split; [|split; [by rewrite Hurls|]].
  - etrans; [|exact Hsub]. by apply insert_subseteq.
  - intros [|i] v Hv; simpl in Hv.
    + injection Hv as <-. rewrite Nat.add_0_r.
      eapply lookup_weaken; [|exact Hsub]. apply lookup_insert_eq.
    + replace (issued d + S i) with (S (issued d + i)) by lia.
      by apply Hlive.
Qed.

(** X22: the gallery never gives its cover URLs back: a render makes
    one object URL for the cover of each work shown, none when there is
    no work at all, each a new one that stands for that cover; every
    URL live before is live after; so [k] renders leave [k] times the
    number of works shown more live URLs than there were. *)
Theorem gallery_urls_never_revoked (k : nat) (s : App.State) (d : Document) :
  urls_ok d →
  length (render_gallery s d).1
    = (if (length (App.works s) =? 0)%nat then 0
       else length (filteredWorks s)) ∧
  (render_gallery s d).1
    = seq (issued d) (length (render_gallery s d).1) ∧
  (App.works s ≠ [] →
   ∀ i w, filteredWorks s !! i = Some w →
          object_urls (render_gallery s d).2 !! (issued d + i)
            = Some (coverBlob w)) ∧
  object_urls d ⊆ object_urls (renders k s d) ∧
  size (object_urls (renders k s d))
    = size (object_urls d) + k * length (render_gallery s d).1 ∧
  urls_ok (renders k s d).
Proof.
  intros Hok.
  assert (∀ d0, urls_ok d0 →
     urls_ok (render_gallery s d0).2 ∧
     length (render_gallery s d0).1
       = (if (length (App.works s) =? 0)%nat then 0
          else length (filteredWorks s)) ∧
     (render_gallery s d0).1
       = seq (issued d0) (length (render_gallery s d0).1) ∧
     object_urls d0 ⊆ object_urls (render_gallery s d0).2 ∧
     size (object_urls (render_gallery s d0).2)
       = size (object_urls d0) + length (render_gallery s d0).1) as Hone.
  { intros d0 Hok0. unfold render_gallery.
    destruct (length (App.works s) =? 0)%nat.
    { simpl. repeat split; try done; lia. }
    destruct (cover_urls_grow (filteredWorks s) d0 Hok0)
      as (Hok' & Hsize & Hsub & Hurls & _).
    destruct (cover_urls (filteredWorks s) d0) as [urls d2]. simpl in *.
    subst urls. rewrite length_seq. repeat split; done. }
  destruct (Hone d Hok) as (_ & Hlen & Hseq & _ & _).
  split; [done|]. split; [done|]. split.
  { intros Hne i w Hw. unfold render_gallery.
    destruct (App.works s) as [|w0 ws0] eqn:Hws; [done|]. simpl.
    by destruct (cover_urls_grow (filteredWorks s) d Hok)
      as (_ & _ & _ & _ & Hlive); apply Hlive. }
  clear Hseq. revert d Hok Hlen.
  induction k as [|k IH]; intros d Hok Hlen; simpl.
  { split; [done|]. split; [lia|done]. }
  destruct (Hone d Hok) as (Hok1 & Hlen1 & _ & Hsub1 & Hsize1).
  destruct (IH (render_gallery s d).2 Hok1) as (Hsub & Hsize & Hok').
  { destruct (Hone _ Hok1) as (_ & -> & _). done. }
  split; [by etrans|]. split; [|done].
  rewrite Hsize, Hsize1.
  destruct (Hone _ Hok1) as (_ & -> & _). rewrite <- Hlen1. lia.
Qed.

Lemma gallery_urls_never_revoked_witness :
  size (object_urls (renders 3
    {| App.works := [beta; alpha]; App.filter := "all";
       App.isUploadModalOpen := false; App.isMenuOpen := false;
       App.activeWork := None; App.toasts := [] |}
    {| object_urls := ∅; issued := 0; body_overflow := "auto" |})) = 6.
Proof.
  destruct (gallery_urls_never_revoked 3
    {| App.works := [beta; alpha]; App.filter := "all";
       App.isUploadModalOpen := false; App.isMenuOpen := false;
       App.activeWork := None; App.toasts := [] |}
    {| object_urls := ∅; issued := 0; body_overflow := "auto" |})
    as (_ & _ & _ & _ & Hsize & _).
  - apply (bool_decide_unpack _). vm_compute. exact I.
  - rewrite Hsize. reflexivity.
Defined.
